(** * rat_trap_parts: the validation and scoring engine

    A shallow embedding of [rat_trap_parts.cpp]: the anagram check of
    [word::is_one_less_than], the stem extraction of
    [rat_trap_parts::stems_from_str], the seeding done by
    [rat_trap_parts::setup] and one iteration of the input loop of
    [rat_trap_parts::play], followed by the properties of the game that
    the specification states about them.

    Conventions.
    - [std::string] is [string]; a [char] is an [ascii].
    - [size_t] is 64 bits wide and [int] 32 bits wide (LP64); their
      wrap-around is written out with [wrap_size_t] and [wrap_int].
    - [std::set<std::string const>] and [std::set<word const>] (ordered
      by [literal], see [word::operator<]) are [gset string]; a loop over
      such a set visits the elements in ascending order ([set_order]).
    - The spell checker and the WordNet calls are external: they are the
      fields of an [oracle], a variable of the development.
    - The calls to ncurses are left out of the rounds of [setup] and
      [play]; [paginate], the page commands and the loop of [help] are
      modelled on their own, after the game. *)

From Stdlib Require Import ZArith Ascii String List Bool Lia.
From stdpp Require Import base decidable numbers list sorting sets gmap strings.

Open Scope string_scope.
Open Scope Z_scope.

#[local] Set Warnings "-clear-no-such-hyp".

(** ** Machine integers *)

Definition wrap_size_t (z : Z) : Z := z mod 2 ^ 64.

Definition wrap_int (z : Z) : Z := (z + 2 ^ 31) mod 2 ^ 32 - 2 ^ 31.

(** [std::string::size] *)
Definition string_size (s : string) : Z := Z.of_nat (String.length s).

(** ** Characters in the "C" locale *)

(** The value of a [char], signed as on the x86-64 System V ABI. *)
Definition char_val (c : ascii) : Z :=
  let n := Z.of_N (N_of_ascii c) in if n <? 128 then n else n - 256.

Definition isupper (c : ascii) : bool :=
  (65 <=? char_val c) && (char_val c <=? 90).

Definition islower (c : ascii) : bool :=
  (97 <=? char_val c) && (char_val c <=? 122).

Definition isalpha (c : ascii) : bool := isupper c || islower c.

Definition tolower (c : ascii) : ascii :=
  if isupper c then ascii_of_N (N_of_ascii c + 32) else c.

Fixpoint to_lower (s : string) : string :=
  match s with
  | EmptyString => EmptyString
  | String c s' => String (tolower c) (to_lower s')
  end.

Fixpoint all_of (p : ascii -> bool) (s : string) : bool :=
  match s with
  | EmptyString => true
  | String c s' => p c && all_of p s'
  end.

(** [lowercase_and_validate] lowers its argument in place and tells
    whether the lowered string is alphabetic: the pair is the new value
    of the argument and the returned flag. *)
Definition lowercase_and_validate (str : string) : string * bool :=
  let str' := to_lower str in (str', all_of isalpha str').

(** ** Words *)

Definition char_le (a b : ascii) : Prop := char_val a <= char_val b.

#[global] Instance char_le_dec a b : Decision (char_le a b).
Proof. unfold char_le. apply _. Defined.

(** [std::sort] over the characters of a string. *)
Definition sort_chars (s : string) : string :=
  string_of_list_ascii (merge_sort char_le (list_ascii_of_string s)).

Record word := mk_word { literal : string; sorted : string }.

(** [word::word] *)
Definition word_of (w : string) : word :=
  {| literal := w; sorted := sort_chars w |}.

(** [join(other, "")] *)
Definition join (other : list string) : string :=
  fold_right String.append "" other.

(** The loop of [word::is_one_less_than]: [s] is what is left of
    [sorted] from index [i] on, [o] what is left of the joined and sorted
    candidates from index [j] on. *)
Fixpoint differ_walk (s o : list ascii) (i j : Z) : bool :=
  match o with
  | [] => true
  | oj :: o' =>
    match s with
    | [] => true
    | si :: s' =>
      if Ascii.eqb si oj then differ_walk s' o' (i + 1) (j + 1)
      else if 1 <? j - i then false
      else differ_walk s o' i (j + 1)
    end
  end.

(** [word::is_one_less_than] *)
Definition is_one_less_than (w : word) (other : list string) : bool :=
  let o := join other in
  if negb (wrap_size_t (string_size o - string_size (sorted w)) =? 1) then false
  else
    let o := sort_chars o in
    differ_walk (list_ascii_of_string (sorted w)) (list_ascii_of_string o) 0 0.

(** ** The lexical oracle

    [Hunspell::spell], [Hunspell::stem] (the list it allocates) and
    WordNet's [morphword] ([None] for [nullptr]) and [in_wn] (non-zero as
    [true]); [pos] is the range [NOUN .. ADV] of [wn.h]. *)

Inductive pos := NOUN | VERB | ADJ | ADV.

Record oracle := {
  spell : string -> bool;
  stem : string -> list string;
  morphword : string -> pos -> option string;
  in_wn : string -> pos -> bool
}.

(** Calls to the oracle are recorded, in the order they are made. *)
Inductive query :=
| Q_spell (s : string)
| Q_morphword (s : string) (i : pos)
| Q_in_wn (s : string) (i : pos)
| Q_stem (s : string).

(** A computation either returns or throws [std::runtime_error]. *)
Inductive res (A : Type) := Ok (a : A) | Throw (what : string).
Arguments Ok {A} a.
Arguments Throw {A} what.

Definition M (A : Type) : Type := list query * res A.

Definition ret {A} (a : A) : M A := ([], Ok a).

Definition bind {A B} (m : M A) (f : A -> M B) : M B :=
  match m with
  | (l, Ok a) => let '(l', r) := f a in ((l ++ l')%list, r)
  | (l, Throw e) => (l, Throw e)
  end.

Notation "'let*' x ':=' m 'in' k" := (bind m (fun x => k))
  (at level 10, x pattern, m at level 100, k at level 200).

Definition throw {A} (what : string) : M A := ([], Throw what).

Definition result {A} (m : M A) : res A := m.2.

Definition queries {A} (m : M A) : list query := m.1.

Section Engine.

Variable dict : oracle.

Definition ask_spell (s : string) : M bool := ([Q_spell s], Ok (spell dict s)).

Definition ask_stem (s : string) : M (list string) :=
  ([Q_stem s], Ok (stem dict s)).

Definition ask_morphword (s : string) (i : pos) : M (option string) :=
  ([Q_morphword s i], Ok (morphword dict s i)).

Definition ask_in_wn (s : string) (i : pos) : M bool :=
  ([Q_in_wn s i], Ok (in_wn dict s i)).

(** The loop [for (int i = NOUN; i <= ADV; i++)] of [stems_from_str],
    over the categories still to visit. *)
Fixpoint morph_loop (literal_arr : string) (cats : list pos)
    (stems : gset string) (should_hunspell : bool) : M (gset string * bool) :=
  match cats with
  | [] => ret (stems, should_hunspell)
  | i :: cats' =>
    let* buf := ask_morphword literal_arr i in
    match buf with
    | None =>
      let* known := ask_in_wn literal_arr i in
      morph_loop literal_arr cats' stems (if known then true else should_hunspell)
    | Some base => morph_loop literal_arr cats' ({[base]} ∪ stems) should_hunspell
    end
  end.

(** The loop [for (int i = 0; i < stems_count; i++)] over the list of
    [Hunspell::stem]; [stems_arr] is what is left of the list from index
    [i] on.  The body ends with an [i++] of its own, so that the loop
    moves on by two entries. *)
Fixpoint emplace_loop (stems_arr : list string) (stems : gset string)
    : gset string :=
  match stems_arr with
  | [] => stems
  | s :: after =>
    let stems := {[s]} ∪ stems in
    match after with
    | [] => stems
    | _ :: after' => emplace_loop after' stems
    end
  end.

(** [rat_trap_parts::stems_from_str] *)
Definition stems_from_str (str : string) : M (gset string) :=
  if 128 <=? string_size str then throw "Input length exceeded."
  else
    let '(literal, valid) := lowercase_and_validate str in
    if negb valid then ret ∅
    else
      let* known := ask_spell str in
      if negb known then ret ∅
      else
        let* (stems, should_hunspell) :=
          morph_loop literal [NOUN; VERB; ADJ; ADV] ∅ false in
        if should_hunspell then
          let* stems_arr := ask_stem literal in
          ret (emplace_loop stems_arr stems)
        else ret stems.

(** ** The game

    Modelled from the spec: the members [score], [used_stems], [current]
    and [prior] are declared in [rat_trap_parts.hpp], which is not among
    the sources.  The two pools are sets of [word]s compared by
    [literal], kept here as the sets of their literals; [score], which
    the program prints with [%lu], is the "non-negative integer" of the
    specification: an integer without wrap-around, whose sign is an
    invariant to prove. *)

Record game := mk_game {
  score : Z;
  used_stems : gset string;
  current : gset string;
  prior : gset string
}.

(** [rat_trap_parts::rat_trap_parts] *)
Definition new_game : game :=
  {| score := 0; used_stems := ∅; current := ∅; prior := ∅ |}.

(** The order in which a range-for visits a [std::set] of strings. *)
Definition set_order (X : gset string) : list string :=
  merge_sort String.le (elements X).

(** The seeding shared by the two branches of [setup]. *)
Definition seed (st : game) (w : string) : M game :=
  let current' := {[w]} ∪ current st in
  let* stems := stems_from_str w in
  ret {| score := score st; used_stems := stems ∪ used_stems st;
         current := current'; prior := prior st |}.

(** One round of the loop of [rat_trap_parts::setup] on the line
    [input_arr]; [choice] is the word that the random draw from
    [valid_words.txt] yields, should the round ask for it. *)
Definition setup_round (st : game) (input_arr choice : string) : M game :=
  let '(str, valid) := lowercase_and_validate input_arr in
  if valid then
    let* is_word :=
      (if string_size str =? 3 then ask_spell str else ret false) in
    if is_word then seed st str
    else if String.eqb str "r" || String.eqb str "random" then seed st choice
    else ret st
  else ret st.

(** What [print_err] shows. *)
Inductive message :=
| not_current (chosen : string)
| need_word
| not_alpha (str : string)
| not_anagram
| not_word (candidate : string)
| already_used (candidate : string).

(** How a round of the loop of [play] ends. *)
Inductive outcome :=
| Paged
| Helped
| Quit
| Rejected (shown : option message)
| Committed.

(** Repeated [strsep(&start, " ")]: the first token and the tokens that
    follow it; [start] is [nullptr] after the first call exactly when no
    token follows. *)
Fixpoint strsep (s : string) : string * list string :=
  match s with
  | EmptyString => (EmptyString, [])
  | String c s' =>
    let '(token, more) := strsep s' in
    if Ascii.eqb c " " then (EmptyString, token :: more)
    else (String c token, more)
  end.

(** The loop [while (start != nullptr)] of [play]. *)
Fixpoint read_candidates (tokens candidates : list string)
    : message + list string :=
  match tokens with
  | [] => inr candidates
  | token :: tokens' =>
    let '(str, valid) := lowercase_and_validate token in
    if negb valid || (string_size str <? 3) then inl (not_alpha str)
    else read_candidates tokens' (candidates ++ [str])%list
  end.

(** The locals of [play] that the loop over the candidates updates. *)
Record round := mk_round {
  entry_invalid : bool;
  shown_err : option message;
  score_this_round : Z;
  stems_this_round : gset string
}.

(** The loop [for (auto const& stem : stems)]; the [else] branch is its
    [break]. *)
Fixpoint stems_loop (used : gset string) (candidate : string)
    (stems : list string) (was_scored : bool) (r : round) : round :=
  match stems with
  | [] => r
  | stem :: stems' =>
    if bool_decide (stem ∉ used) && bool_decide (stem ∉ stems_this_round r) then
      let claimed := {[stem]} ∪ stems_this_round r in
      let total :=
        if was_scored then score_this_round r
        else wrap_int (wrap_size_t (wrap_size_t (score_this_round r)
                                    + wrap_size_t (string_size candidate - 3))) in
      stems_loop used candidate stems' true
        {| entry_invalid := entry_invalid r; shown_err := shown_err r;
           score_this_round := total; stems_this_round := claimed |}
    else
      {| entry_invalid := true; shown_err := Some (already_used candidate);
         score_this_round := score_this_round r;
         stems_this_round := stems_this_round r |}
  end.

(** The loop [for (auto const& candidate : candidates)]; only the test
    on an empty stem set leaves it early. *)
Fixpoint candidates_loop (used : gset string) (candidates : list string)
    (r : round) : M round :=
  match candidates with
  | [] => ret r
  | candidate :: candidates' =>
    let* stems := stems_from_str candidate in
    if (size stems =? 0)%nat then
      ret {| entry_invalid := true; shown_err := Some (not_word candidate);
             score_this_round := score_this_round r;
             stems_this_round := stems_this_round r |}
    else
      candidates_loop used candidates'
        (stems_loop used candidate (set_order stems) false r)
  end.

(** The loop of the [q] command over [current]. *)
Fixpoint bonus_loop (words : list string) (score : Z) : Z :=
  match words with
  | [] => score
  | c :: words' => bonus_loop words' (score + wrap_size_t (string_size c - 3))
  end.

(** One round of the loop [while (true)] of [rat_trap_parts::play], on
    the line [input_arr]. *)
Definition play_round (st : game) (input_arr : string) : M (outcome * game) :=
  let input := to_lower input_arr in
  if String.eqb input "," || String.eqb input "." ||
     String.eqb input "<" || String.eqb input ">" then ret (Paged, st)
  else if String.eqb input "q" then
    ret (Quit, {| score := bonus_loop (set_order (current st)) (score st);
                  used_stems := used_stems st; current := current st;
                  prior := prior st |})
  else if String.eqb input "?" || String.eqb input "h" then ret (Helped, st)
  else
    let '(chosen, start) := strsep input_arr in
    if bool_decide (chosen ∉ current st) then
      ret (Rejected (Some (not_current chosen)), st)
    else
      match start with
      | [] => ret (Rejected (Some need_word), st)
      | _ :: _ =>
        match read_candidates start [] with
        | inl shown => ret (Rejected (Some shown), st)
        | inr candidates =>
          if negb (is_one_less_than (word_of chosen) candidates) then
            ret (Rejected (Some not_anagram), st)
          else
            let* r := candidates_loop (used_stems st) candidates
                        {| entry_invalid := false; shown_err := None;
                           score_this_round := 0; stems_this_round := ∅ |} in
            if entry_invalid r then
              ret (Rejected (shown_err r), st)
            else
              ret (Committed,
                   {| score := score st + score_this_round r;
                      used_stems := stems_this_round r ∪ used_stems st;
                      current := list_to_set candidates ∪ (current st ∖ {[chosen]});
                      prior := {[chosen]} ∪ prior st |})
        end
      end.

(** ** Runs of the game *)

(** The stems of a word and the stems that a list of candidates claims. *)
Definition stems_of (w : string) : gset string :=
  match result (stems_from_str w) with
  | Ok stems => stems
  | Throw _ => ∅
  end.

Definition claimed (candidates : list string) : gset string :=
  ⋃ (stems_of <$> candidates).

(** Step 3 of the round evaluator, in the words of the specification:
    every candidate, in input order, is a recognized word (has stems)
    and none of its stems is in the ledger [used] or was claimed by an
    earlier candidate of the same turn. *)
Fixpoint all_pass (used : gset string) (candidates : list string) : Prop :=
  match candidates with
  | [] => True
  | c :: candidates' =>
    stems_of c ≠ ∅ ∧ stems_of c ## used ∧
    all_pass (stems_of c ∪ used) candidates'
  end.

(** The lines that [play] takes for commands, once lowered. *)
Definition commands : list string := [","; "."; "<"; ">"; "q"; "?"; "h"].

(** The reasons for which the specification has a turn rejected: the
    chosen word is not in [current], no candidate follows it, a
    candidate is not alphabetic or is shorter than three letters, the
    anagram check fails, or the candidates do not all pass. *)
Definition turn_fails (st : game) (chosen : string) (start : list string)
    : Prop :=
  chosen ∉ current st ∨ start = [] ∨
  (∃ shown, read_candidates start [] = inl shown) ∨
  (∃ candidates,
     read_candidates start [] = inr candidates ∧
     (is_one_less_than (word_of chosen) candidates = false ∨
      ¬ all_pass (used_stems st) candidates)).

(** The state in which [setup] hands over to the loop of [play].
    Modelled from the spec: the word list [valid_words.txt], which is
    not among the sources, holds "known 3-letter valid words", so a word
    of three letters is what the random draw yields.  The failures to
    open or read a file are left out. *)
Inductive started : game -> Prop :=
| started_intro input_arr choice log st :
    String.length choice = 3%nat ->
    setup_round new_game input_arr choice = (log, Ok st) ->
    current st ≠ ∅ ->
    started st.

(** [input_arr], the buffer that [mvgetnstr] fills, is declared in the
    header; [mvgetnstr] takes the number of characters to read as an
    [int], so that a line has fewer than 2^31 characters whatever the
    size of the buffer. *)
Definition fits_input (line : string) : Prop := string_size line < 2 ^ 31.

(** One round of the loop of [play] that does not leave it. *)
Definition step (st st' : game) : Prop :=
  ∃ line log o,
    fits_input line ∧ play_round st line = (log, Ok (o, st')) ∧ o ≠ Quit.

Inductive reachable : game -> Prop :=
| reachable_start st : started st -> reachable st
| reachable_step st st' : reachable st -> step st st' -> reachable st'.

(** The invariant of the loop of [play]. *)
Record inv (st : game) : Prop := mk_inv {
  inv_score : 0 <= score st;
  inv_size : ∀ w, w ∈ current st ∪ prior st -> 3 <= string_size w < 128;
  inv_stems : ∀ w, w ∈ current st ∪ prior st -> stems_of w ⊆ used_stems st;
  inv_disjoint : current st ## prior st
}.

End Engine.

(** ** The wording of the specification *)

(** "[combined] is [source]'s multiset plus exactly one extra
    character". *)
Definition one_letter_more (source : string) (candidates : list string) : Prop :=
  ∃ extra,
    Permutation (list_ascii_of_string (join candidates))
                (extra :: list_ascii_of_string source).

(** The sum of [len(word) - 3] over a list of words. *)
Definition gain (words : list string) : Z :=
  foldr (fun w total => string_size w - 3 + total) 0 words.

(** The sum of the sizes of a list of strings. *)
Definition total_size (words : list string) : Z :=
  foldr (fun w total => string_size w + total) 0 words.

(** The calls to [Hunspell::stem] among the recorded ones. *)
Definition is_Q_stem (q : query) : bool :=
  match q with Q_stem _ => true | _ => false end.

(** A word enters [prior] during a step. *)
Definition retired (w : string) (st st' : game) : Prop :=
  (w ∉ prior st) ∧ (w ∈ prior st').

(** ** A small dictionary to run the engine on *)

Definition demo : oracle := {|
  spell := fun s =>
    bool_decide (s ∈ ["cat"; "acts"; "cast"; "cats"; "scat"; "bass"]);
  stem := fun s => if String.eqb s "bass" then ["bass"; "base"] else [s];
  morphword := fun s i =>
    if String.eqb s "acts" then
      match i with NOUN | VERB => Some "act" | _ => None end
    else if String.eqb s "cats" then
      match i with NOUN => Some "cat" | _ => None end
    else None;
  in_wn := fun s i =>
    match i with
    | NOUN => bool_decide (s ∈ ["cat"; "cast"; "scat"; "bass"])
    | VERB => bool_decide (s ∈ ["cast"])
    | _ => false
    end
|}.

(** The game seeded with "cat", and after the turn "cat acts". *)
Definition demo_cat : game :=
  {| score := 0; used_stems := {["cat"]}; current := {["cat"]}; prior := ∅ |}.

Definition demo_acts : game :=
  {| score := 1; used_stems := {["act"; "cat"]}; current := {["acts"]};
     prior := {["cat"]} |}.

(** A string of [n] letters [a]. *)
Fixpoint letters (n : nat) : string :=
  match n with
  | O => EmptyString
  | S n' => String "a" (letters n')
  end.

(** ** The order of words *)

(** [word::operator<] *)
Definition word_lt (w other : word) : bool :=
  String.ltb (literal w) (literal other).

(** ** The pages of a pool

    [MAX_COLS] is a macro of the header, [max_cols] here; it is an [int]
    that the comparison with a [size_t] converts.  A page is a
    [std::array] of [size] rows; [to.back()[row_index] = row] is
    undefined out of range, where [<[_:=_]>] does nothing. *)

Record pager := mk_pager {
  to : list (list string);
  row : string;
  row_index : Z
}.

(** [to.emplace_back()] *)
Definition emplace_back (size : nat) (to : list (list string))
    : list (list string) :=
  (to ++ [replicate size EmptyString])%list.

(** [to.back()[row_index] = row] *)
Definition set_back (to : list (list string)) (row_index : Z) (row : string)
    : list (list string) :=
  alter (fun page => <[Z.to_nat row_index := row]> page)
        (pred (length to)) to.

(** The block that [paginate] runs to store a row: a new page when the
    last one is full, then [to.back()[row_index++] = row]. *)
Definition store_row (size : nat) (p : pager) : pager :=
  let p :=
    if wrap_size_t (row_index p) =? Z.of_nat size then
      {| to := emplace_back size (to p); row := row p; row_index := 0 |}
    else p in
  {| to := set_back (to p) (row_index p) (row p); row := row p;
     row_index := wrap_int (row_index p + 1) |}.

(** The test [row.size() + str.literal.size() < MAX_COLS] of
    [paginate]: the word fits the row in progress. *)
Definition fits_row (max_cols : Z) (p : pager) (str : string) : bool :=
  wrap_size_t (string_size (row p) + string_size str) <? wrap_size_t max_cols.

(** The loop [for (auto const& str : from)] of [paginate], over the
    literals still to visit. *)
Fixpoint paginate_loop (max_cols : Z) (size : nat) (from : list string)
    (p : pager) : pager :=
  match from with
  | [] => p
  | str :: from' =>
    if fits_row max_cols p str then
      paginate_loop max_cols size from'
        {| to := to p; row := row p ++ (str ++ " "); row_index := row_index p |}
    else
      let p := store_row size p in
      paginate_loop max_cols size from'
        {| to := to p; row := EmptyString; row_index := row_index p |}
  end.

(** The locals of [paginate] when its loop starts, after [to.clear()]
    and [to.emplace_back()]. *)
Definition new_pager (size : nat) : pager :=
  {| to := emplace_back size []; row := EmptyString; row_index := 0 |}.

(** [paginate], on the literals of [from] in the order of the set. *)
Definition paginate (max_cols : Z) (size : nat) (from : list string)
    : list (list string) :=
  let p := paginate_loop max_cols size from (new_pager size) in
  if 0 <? string_size (row p) then to (store_row size p) else to p.


(** What [paginate] keeps true of its vector of pages and of its row
    index, and of the width of the rows. *)
Definition pager_ok (size : nat) (p : pager) : Prop :=
  to p ≠ [] ∧ Forall (fun page => length page = size) (to p) ∧
  0 <= row_index p <= Z.of_nat size.

Definition pager_narrow (max_cols : Z) (p : pager) : Prop :=
  Forall (Forall (fun r => string_size r <= max_cols)) (to p) ∧
  string_size (row p) <= max_cols.

(** The pages that [play] shows for a pool. *)
Definition pages_of (max_cols : Z) (size : nat) (pool : gset string)
    : list (list string) :=
  paginate max_cols size (set_order pool).

(** ** The page commands

    [prior_index] and [current_index] are [unsigned int]s: [std::max]
    takes them with [static_cast<unsigned int>(0)]. *)

Definition wrap_uint (z : Z) : Z := z mod 2 ^ 32.

(** [index = std::max(static_cast<unsigned int>(0), index - 1)], the
    commands [,] and [<]. *)
Definition page_back (index : Z) : Z := Z.max 0 (wrap_uint (index - 1)).

(** [index = std::min(strings.size(),
    static_cast<unsigned long>(index + 1))], the commands [.] and [>];
    [pages] is [strings.size()]. *)
Definition page_forward (pages index : Z) : Z :=
  wrap_uint (Z.min pages (wrap_size_t (wrap_uint (index + 1)))).

(** ** The help screen *)






(** ** The word list of the random start

    The loop of [setup] over [data], the buffer that [fread] fills with
    [read] records of four bytes: it ends each record after three bytes
    and takes the C string that starts there.  [start] is the offset of
    the pointer in [data]; the loop is given [fuel] rounds and answers
    [None] should they not be enough. *)

(** The C string at the head of some bytes. *)
Fixpoint c_str (bytes : list ascii) : string :=
  match bytes with
  | [] => EmptyString
  | c :: bytes' =>
    if Ascii.eqb c Ascii.zero then EmptyString else String c (c_str bytes')
  end.

Fixpoint choices_loop (fuel : nat) (data : list ascii) (read start : Z)
    : option (list string) :=
  match fuel with
  | O => None
  | S fuel' =>
    if start <? wrap_int (read * 4) - 3 then
      let data := <[Z.to_nat (start + 3) := Ascii.zero]> data in
      match choices_loop fuel' data read (start + 4) with
      | Some choices => Some (c_str (drop (Z.to_nat start) data) :: choices)
      | None => None
      end
    else Some []
  end.

(** * Properties *)

(** ** The monad *)

Lemma bind_ok {A B} (m : M A) (f : A -> M B) log a :
  m = (log, Ok a) -> bind m f = ((log ++ queries (f a))%list, result (f a)).
Proof. intros ->. unfold bind, queries, result. by destruct (f a). Qed.

Lemma bind_throw {A B} (m : M A) (f : A -> M B) log what :
  m = (log, Throw what) -> bind m f = (log, Throw what).
Proof. by intros ->. Qed.

Lemma bind_inv_ok {A B} (m : M A) (f : A -> M B) log b :
  bind m f = (log, Ok b) ->
  ∃ log1 a log2, m = (log1, Ok a) ∧ f a = (log2, Ok b) ∧ log = (log1 ++ log2)%list.
Proof.
  destruct m as [log1 [a|what]]; simpl; [|done].
  destruct (f a) as [log2 r] eqn:Hf. intros [= <- ->]. eauto 6.
Qed.

(** ** Sizes *)

Lemma string_size_nonneg s : 0 <= string_size s.
Proof. unfold string_size. lia. Qed.

Lemma length_to_lower s : String.length (to_lower s) = String.length s.
Proof. induction s; simpl; congruence. Qed.

Lemma string_size_to_lower s : string_size (to_lower s) = string_size s.
Proof. unfold string_size. by rewrite length_to_lower. Qed.

Lemma length_list_ascii_of_string s :
  length (list_ascii_of_string s) = String.length s.
Proof. induction s; simpl; congruence. Qed.

Lemma length_string_of_list_ascii l :
  String.length (string_of_list_ascii l) = length l.
Proof. induction l; simpl; congruence. Qed.

Lemma string_size_sort_chars s : string_size (sort_chars s) = string_size s.
Proof.
  unfold string_size, sort_chars.
  rewrite length_string_of_list_ascii, merge_sort_Permutation.
  by rewrite length_list_ascii_of_string.
Qed.

Lemma string_size_append s t :
  string_size (s ++ t) = string_size s + string_size t.
Proof.
  unfold string_size. induction s as [|c s IH]; [done|].
  change (String c s ++ t) with (String c (s ++ t)).
  cbn [String.length]. lia.
Qed.

Lemma string_size_letters n : string_size (letters n) = Z.of_nat n.
Proof.
  unfold string_size. induction n as [|n IH]; [done|].
  cbn [letters String.length]. lia.
Qed.

(** ** The anagram check *)

(** C3, as amended: on the four vectors of the specification the check
    answers false for ["act"], true for ["cats"], false for ["tabs"]
    and, the joined candidates being one letter longer than "cat" and
    holding its letters, true for ["ct"; "as"]. *)
Theorem validator_vectors :
  is_one_less_than (word_of "cat") ["act"] = false ∧
  is_one_less_than (word_of "cat") ["cats"] = true ∧
  is_one_less_than (word_of "cat") ["tabs"] = false ∧
  is_one_less_than (word_of "cat") ["ct"; "as"] = true.
Proof. by vm_compute. Qed.

(** C3, as stated, fails: the fourth vector is accepted. *)
Lemma validator_vectors_as_stated_fail :
  ¬ (is_one_less_than (word_of "cat") ["act"] = false ∧
     is_one_less_than (word_of "cat") ["cats"] = true ∧
     is_one_less_than (word_of "cat") ["tabs"] = false ∧
     is_one_less_than (word_of "cat") ["ct"; "as"] = false).
Proof. intros (_ & _ & _ & H). by vm_compute in H. Qed.

(** The order of [std::sort] on characters. *)
#[global] Instance char_le_trans : Transitive char_le.
Proof. unfold char_le. intros a b c. lia. Qed.

#[global] Instance char_le_total : Total char_le.
Proof. unfold char_le. intros a b. lia. Qed.

Lemma char_val_inj a b : char_val a = char_val b -> a = b.
Proof.
  unfold char_val. intros H.
  pose proof (N_ascii_bounded a). pose proof (N_ascii_bounded b).
  rewrite <-(ascii_N_embedding a), <-(ascii_N_embedding b). f_equal.
  destruct (Z.ltb_spec (Z.of_N (N_of_ascii a)) 128),
    (Z.ltb_spec (Z.of_N (N_of_ascii b)) 128); lia.
Qed.

#[global] Instance char_le_antisymm : AntiSymm (=) char_le.
Proof. unfold char_le. intros a b ? ?. apply char_val_inj. lia. Qed.

Lemma list_ascii_sort_chars s :
  list_ascii_of_string (sort_chars s)
  = merge_sort char_le (list_ascii_of_string s).
Proof. unfold sort_chars. apply list_ascii_of_string_of_list_ascii. Qed.

Lemma differ_walk_step si s oj o i j :
  differ_walk (si :: s) (oj :: o) i j
  = if Ascii.eqb si oj then differ_walk s o (i + 1) (j + 1)
    else if 1 <? j - i then false
    else differ_walk (si :: s) o i (j + 1).
Proof. done. Qed.

Lemma differ_walk_same s i j : differ_walk s s i j = true.
Proof.
  revert i j. induction s as [|c s IH]; intros i j; [done|].
  by rewrite differ_walk_step, Ascii.eqb_refl.
Qed.

Lemma differ_walk_cons s extra i : differ_walk s (extra :: s) i i = true.
Proof.
  revert extra i. induction s as [|c s IH]; intros extra i; [done|].
  rewrite differ_walk_step. destruct (Ascii.eqb c extra); [apply IH|].
  replace (i - i) with 0 by lia. apply differ_walk_same.
Qed.

Lemma differ_walk_insert s1 s2 extra i :
  differ_walk (s1 ++ s2) (s1 ++ extra :: s2) i i = true.
Proof.
  revert i. induction s1 as [|c s1 IH]; intros i.
  - apply differ_walk_cons.
  - rewrite <-!app_comm_cons, differ_walk_step. by rewrite Ascii.eqb_refl.
Qed.

(** X3: candidates whose letters are those of the source and one more are
    accepted, wherever the extra letter falls among the sorted
    letters. *)
Lemma is_one_less_than_complete source candidates :
  one_letter_more source candidates ->
  is_one_less_than (word_of source) candidates = true.
Proof.
  intros [extra Hperm]. unfold is_one_less_than. cbn [sorted word_of].
  assert (string_size (join candidates) = string_size source + 1) as Hsize.
  { unfold string_size. rewrite <-!length_list_ascii_of_string, Hperm.
    cbn [length]. lia. }
  rewrite string_size_sort_chars, Hsize.
  replace (string_size source + 1 - string_size source) with 1 by lia.
  cbn [negb Z.eqb wrap_size_t]. change (1 mod 2 ^ 64 =? 1) with true. cbn [negb].
  rewrite !list_ascii_sort_chars.
  set (o := merge_sort char_le (list_ascii_of_string (join candidates))).
  set (s := merge_sort char_le (list_ascii_of_string source)).
  assert (o ≡ₚ extra :: s) as Ho.
  { unfold o, s. by rewrite !merge_sort_Permutation. }
  assert (extra ∈ o) as (o1 & o2 & Hsplit)%list_elem_of_split.
  { rewrite Ho. left. }
  assert (StronglySorted char_le o) as Hsorted
    by (apply StronglySorted_merge_sort; apply _).
  assert ((o1 ++ o2)%list = s) as <-.
  { apply (StronglySorted_unique char_le).
    - rewrite Hsplit in Hsorted.
      apply StronglySorted_app in Hsorted as (Hcross & Hs1 & Hs2).
      apply StronglySorted_cons in Hs2 as [Hhd Hs2].
      apply StronglySorted_app_2; [|done..].
      intros x1 x2 Hx1 Hx2. apply Hcross; [done|by right].
    - apply StronglySorted_merge_sort; apply _.
    - rewrite Hsplit in Ho. apply (Permutation_cons_inv (a := extra)).
      by rewrite Permutation_middle. }
  rewrite Hsplit. apply differ_walk_insert.
Qed.

(** C1 at a failing input: "rays" has no letter [t], so it is not "rat"
    plus one letter, and yet the check accepts it: the walk lets two
    mismatches through before [j - i] exceeds one, and then runs out of
    candidates' letters with the last letter of the source unmatched. *)
Theorem is_one_less_than_accepts_rays :
  is_one_less_than (word_of "rat") ["rays"] = true ∧
  ¬ one_letter_more "rat" ["rays"].
Proof.
  split; [by vm_compute|].
  intros [extra Hperm]. symmetry in Hperm.
  apply (Permutation_in "t"%char) in Hperm; simpl in *; [|tauto].
  intuition discriminate.
Qed.

(** ** The stems of a word *)

Section Stems.

Variable dict : oracle.

Lemma morph_loop_ok literal_arr cats stems should_hunspell :
  ∃ log r, morph_loop dict literal_arr cats stems should_hunspell = (log, Ok r).
Proof.
  revert stems should_hunspell.
  induction cats as [|i cats IH]; intros stems should_hunspell; simpl.
  { by eexists _, _. }
  destruct (morphword dict literal_arr i) as [base|]; simpl.
  - destruct (IH ({[base]} ∪ stems) should_hunspell) as (log & r & ->).
    by eexists _, _.
  - destruct (IH stems (if in_wn dict literal_arr i then true else should_hunspell))
      as (log & r & ->).
    by eexists _, _.
Qed.

Lemma stems_from_str_throw str :
  128 <= string_size str ->
  stems_from_str dict str = ([], Throw "Input length exceeded.").
Proof.
  intros Hlen. unfold stems_from_str.
  destruct (Z.leb_spec 128 (string_size str)); [done|lia].
Qed.

Lemma stems_from_str_ok str :
  string_size str < 128 -> ∃ stems, result (stems_from_str dict str) = Ok stems.
Proof.
  intros Hlen. unfold stems_from_str.
  destruct (Z.leb_spec 128 (string_size str)); [lia|].
  unfold lowercase_and_validate.
  destruct (all_of isalpha (to_lower str)); cbn -[morph_loop]; [|by eexists].
  destruct (spell dict str); cbn -[morph_loop]; [|by eexists].
  destruct (morph_loop_ok (to_lower str) [NOUN; VERB; ADJ; ADV] ∅ false)
    as (log & [stems []] & ->); simpl; by eexists.
Qed.

Lemma stems_from_str_ok_inv str log stems :
  stems_from_str dict str = (log, Ok stems) -> string_size str < 128.
Proof.
  intros H. destruct (Z.lt_ge_cases (string_size str) 128) as [|Hge]; [done|].
  by rewrite (stems_from_str_throw _ Hge) in H.
Qed.

(** The loop over the list of [Hunspell::stem] adds the entries at the
    even indices, and only them. *)
Lemma elem_of_emplace_loop stems_arr stems x :
  x ∈ emplace_loop stems_arr stems ↔
  x ∈ stems ∨ ∃ k : nat, stems_arr !! (2 * k)%nat = Some x.
Proof.
  assert (∀ arr, (∀ stems, x ∈ emplace_loop arr stems ↔
                    x ∈ stems ∨ ∃ k : nat, arr !! (2 * k)%nat = Some x) ∧
                 (∀ s stems, x ∈ emplace_loop (s :: arr) stems ↔
                    x ∈ stems ∨ ∃ k : nat, (s :: arr) !! (2 * k)%nat = Some x))
    as H; [|apply H].
  clear. induction arr as [|s' arr [IH1 IH2]].
  - split; [intros stems|intros s stems]; simpl.
    + split; [tauto|]. intros [?|[k Hk]]; [done|]. by rewrite lookup_nil in Hk.
    + rewrite elem_of_union, elem_of_singleton. split.
      * intros [->|?]; [right; by exists 0%nat|tauto].
      * intros [?|[[|k] Hk]]; [tauto|simplify_eq/=; tauto|].
        replace (2 * S k)%nat with (S (S (2 * k))) in Hk by lia.
        by rewrite lookup_cons in Hk.
  - split; [done|]. intros s stems.
    change (emplace_loop (s :: s' :: arr) stems)
      with (emplace_loop arr ({[s]} ∪ stems)).
    rewrite IH1, elem_of_union, elem_of_singleton. split.
    + intros [[->|?]|[k Hk]]; [right; by exists 0%nat|tauto|].
      right. exists (S k). by replace (2 * S k)%nat with (S (S (2 * k))) by lia.
    + intros [?|[[|k] Hk]]; [tauto|simplify_eq/=; tauto|].
      right. exists k. by replace (2 * S k)%nat with (S (S (2 * k))) in Hk by lia.
Qed.

End Stems.

(** C5 at a failing input: the stemmer is asked once and returns two
    stems for "bass", of which only the first reaches the result: the
    loop over the returned list steps by two. *)
Theorem stems_from_str_drops_second_stem :
  stem demo "bass" = ["bass"; "base"] ∧
  List.filter is_Q_stem (queries (stems_from_str demo "bass")) = [Q_stem "bass"] ∧
  result (stems_from_str demo "bass") = Ok {["bass"]} ∧
  "base" ∉ stems_of demo "bass".
Proof.
  split; [done|]. split; [by vm_compute|]. split; [by vm_compute|].
  assert (stems_of demo "bass" = {["bass"]}) as -> by (by vm_compute).
  set_solver.
Qed.

(** C6, as amended: the length error is raised exactly for the inputs
    of 128 characters or more, with no call made to the dictionary;
    every shorter input yields a set of stems. *)
Theorem stems_from_str_length_guard (dict : oracle) (str : string) :
  (128 <= string_size str ∧
   stems_from_str dict str = ([], Throw "Input length exceeded.")) ∨
  (string_size str < 128 ∧
   ∃ stems, result (stems_from_str dict str) = Ok stems).
Proof.
  destruct (Z.lt_ge_cases (string_size str) 128).
  - right. eauto using stems_from_str_ok.
  - left. eauto using stems_from_str_throw.
Qed.

(** C6, as stated, fails: an input of exactly 128 characters is not
    longer than 128 and raises the length error. *)
Lemma stems_from_str_throws_at_128 :
  string_size (letters 128) <= 128 ∧
  result (stems_from_str demo (letters 128)) = Throw "Input length exceeded.".
Proof. split; [by vm_compute|]. by vm_compute. Qed.

(** ** The loops of a turn *)

(** Splits a conjunction of four. *)
Ltac split_and4 := split; [|split; [|split]].

Lemma elem_of_set_order (X : gset string) x : x ∈ set_order X ↔ x ∈ X.
Proof. unfold set_order. by rewrite merge_sort_Permutation, elem_of_elements. Qed.

Lemma list_to_set_set_order (X : gset string) : list_to_set (set_order X) = X.
Proof.
  apply set_eq. intros x. by rewrite elem_of_list_to_set, elem_of_set_order.
Qed.

Lemma set_order_nil (X : gset string) : set_order X = [] -> X = ∅.
Proof.
  intros H. apply set_eq. intros x.
  rewrite <-elem_of_set_order, H. set_solver.
Qed.

Lemma size_zero_empty (X : gset string) : (size X =? 0)%nat = true ↔ X = ∅.
Proof. rewrite Nat.eqb_eq, size_empty_iff. by unfold_leibniz. Qed.

Lemma gain_cons w words : gain (w :: words) = string_size w - 3 + gain words.
Proof. done. Qed.

Lemma total_size_cons w words :
  total_size (w :: words) = string_size w + total_size words.
Proof. done. Qed.

Lemma gain_total_size words :
  gain words = total_size words - 3 * Z.of_nat (length words).
Proof.
  induction words as [|w words IH]; [done|].
  rewrite gain_cons, total_size_cons, IH. cbn [length]. lia.
Qed.

Lemma string_size_join words : string_size (join words) = total_size words.
Proof.
  induction words as [|w words IH]; [done|].
  rewrite total_size_cons, <-IH. apply string_size_append.
Qed.

Lemma total_size_app l1 l2 : total_size (l1 ++ l2) = total_size l1 + total_size l2.
Proof.
  induction l1 as [|w l1 IH]; [done|].
  rewrite <-app_comm_cons, !total_size_cons, IH. lia.
Qed.

Lemma total_size_nonneg words : 0 <= total_size words.
Proof.
  induction words as [|w words IH]; [done|].
  rewrite total_size_cons. pose proof (string_size_nonneg w). lia.
Qed.

Lemma total_size_elem_of words w : w ∈ words -> string_size w <= total_size words.
Proof.
  induction 1 as [w words|w w' words _ IH]; rewrite total_size_cons.
  - pose proof (total_size_nonneg words). lia.
  - pose proof (string_size_nonneg w'). lia.
Qed.

Lemma gain_Permutation l1 l2 : l1 ≡ₚ l2 -> gain l1 = gain l2.
Proof. induction 1; rewrite ?gain_cons; lia. Qed.

(** What the tokens of a line add up to. *)
Lemma strsep_size line chosen start :
  strsep line = (chosen, start) ->
  string_size chosen + total_size start <= string_size line.
Proof.
  revert chosen start. induction line as [|c line IH]; intros chosen start.
  { by intros [= <- <-]. }
  cbn [strsep]. destruct (strsep line) as [token more].
  specialize (IH _ _ eq_refl).
  destruct (Ascii.eqb c " "); intros [= <- <-]; rewrite ?total_size_cons;
    unfold string_size in *; cbn [String.length]; lia.
Qed.

Lemma read_candidates_inr tokens candidates result :
  read_candidates tokens candidates = inr result ->
  result = (candidates ++ (to_lower <$> tokens))%list ∧
  Forall (fun c => 3 <= string_size c) (to_lower <$> tokens).
Proof.
  revert candidates. induction tokens as [|token tokens IH]; intros candidates.
  { intros [= <-]. by rewrite app_nil_r. }
  cbn [read_candidates lowercase_and_validate].
  destruct (negb _ || _) eqn:Hbad; [done|].
  apply orb_false_iff in Hbad as [_ Hlen%Z.ltb_ge].
  intros [-> Hall]%IH. rewrite <-app_assoc. split; [done|].
  by constructor.
Qed.

Lemma total_size_to_lower tokens :
  total_size (to_lower <$> tokens) = total_size tokens.
Proof.
  induction tokens as [|token tokens IH]; [done|].
  rewrite fmap_cons, !total_size_cons, IH, string_size_to_lower. done.
Qed.

Lemma wrap_exact total extra :
  0 <= total -> 0 <= extra -> total + extra < 2 ^ 31 ->
  wrap_int (wrap_size_t (wrap_size_t total + wrap_size_t extra)) = total + extra.
Proof.
  intros. unfold wrap_int, wrap_size_t.
  rewrite !(Z.mod_small total), !(Z.mod_small extra) by lia.
  rewrite (Z.mod_small (total + extra)), Z.mod_small by lia. lia.
Qed.

Lemma gain_nonneg words :
  Forall (fun c => 3 <= string_size c) words -> 0 <= gain words.
Proof. induction 1; rewrite ?gain_cons; [done|lia]. Qed.

Lemma stems_loop_invalid used candidate stems was_scored r :
  entry_invalid r = true ->
  entry_invalid (stems_loop used candidate stems was_scored r) = true.
Proof.
  revert was_scored r.
  induction stems as [|stem stems IH]; intros was_scored r Hr; [done|].
  cbn [stems_loop]. destruct (_ && _); [|done]. by apply IH.
Qed.

Lemma stems_loop_valid used candidate stems was_scored r :
  entry_invalid (stems_loop used candidate stems was_scored r) = false ->
  entry_invalid r = false ∧
  (∀ stem, stem ∈ stems -> (stem ∉ used) ∧ (stem ∉ stems_this_round r)) ∧
  stems_this_round (stems_loop used candidate stems was_scored r)
    = list_to_set stems ∪ stems_this_round r ∧
  score_this_round (stems_loop used candidate stems was_scored r)
    = if was_scored then score_this_round r
      else match stems with
           | [] => score_this_round r
           | _ :: _ =>
             wrap_int (wrap_size_t (wrap_size_t (score_this_round r)
                                    + wrap_size_t (string_size candidate - 3)))
           end.
Proof.
  revert was_scored r.
  induction stems as [|stem stems IH]; intros was_scored r.
  { cbn [stems_loop]. intros Hr. split_and4; [done|set_solver|set_solver|].
    by destruct was_scored. }
  cbn [stems_loop].
  destruct (bool_decide (stem ∉ used)) eqn:Hused; [|done].
  destruct (bool_decide (stem ∉ stems_this_round r)) eqn:Hround; [|done].
  cbn [andb]. intros (Hr & Hfresh & Hclaimed & Hscore)%IH.
  cbn [entry_invalid stems_this_round score_this_round] in *.
  apply bool_decide_eq_true in Hused. apply bool_decide_eq_true in Hround.
  rewrite Hclaimed, Hscore. split_and4; [done| |set_solver|].
  - intros s [->|Hs]%elem_of_cons; [done|].
    destruct (Hfresh s Hs). set_solver.
  - by destruct was_scored.
Qed.

Lemma NoDup_set_order (X : gset string) : NoDup (set_order X).
Proof. unfold set_order. rewrite merge_sort_Permutation. apply NoDup_elements. Qed.

Lemma stems_loop_fresh used candidate stems was_scored r :
  NoDup stems ->
  (∀ stem, stem ∈ stems -> (stem ∉ used) ∧ (stem ∉ stems_this_round r)) ->
  entry_invalid (stems_loop used candidate stems was_scored r) = entry_invalid r.
Proof.
  intros Hnodup. revert was_scored r.
  induction Hnodup as [|stem stems Hnotin _ IH]; intros was_scored r Hfresh;
    [done|].
  cbn [stems_loop]. destruct (Hfresh stem) as [Hused Hround]; [set_solver|].
  rewrite !bool_decide_eq_true_2 by done. cbn [andb].
  rewrite IH; [done|]. cbn [stems_this_round].
  intros s Hs. destruct (Hfresh s); set_solver.
Qed.

Section Turn.

Variable dict : oracle.

Lemma stems_of_ok str log stems :
  stems_from_str dict str = (log, Ok stems) -> stems_of dict str = stems.
Proof. unfold stems_of, result. by intros ->. Qed.

Lemma claimed_cons c candidates :
  claimed dict (c :: candidates) = stems_of dict c ∪ claimed dict candidates.
Proof. done. Qed.

Lemma candidates_loop_invalid used candidates r log r' :
  candidates_loop dict used candidates r = (log, Ok r') ->
  entry_invalid r = true -> entry_invalid r' = true.
Proof.
  revert r log. induction candidates as [|c candidates IH]; intros r log.
  { by intros [= _ <-]. }
  cbn [candidates_loop].
  intros (log1 & stems & log2 & _ & Hrest & _)%bind_inv_ok Hr.
  revert Hrest. cbv beta. destruct (size stems =? 0)%nat; intros Hrest.
  { by injection Hrest as _ <-. }
  eapply IH; [done|]. by apply stems_loop_invalid.
Qed.

Lemma candidates_loop_ok used candidates r :
  Forall (fun c => string_size c < 128) candidates ->
  ∃ log r', candidates_loop dict used candidates r = (log, Ok r').
Proof.
  intros Hall. revert r.
  induction Hall as [|c candidates Hc _ IH]; intros r.
  { by eexists _, _. }
  cbn [candidates_loop].
  destruct (stems_from_str_ok dict c Hc) as [stems Hstems].
  destruct (stems_from_str dict c) as [log1 res] eqn:Hrun.
  unfold result in Hstems. cbn in Hstems. subst res.
  destruct (size stems =? 0)%nat eqn:Hsize.
  - erewrite bind_ok by done. rewrite Hsize. by eexists _, _.
  - erewrite bind_ok by done. rewrite Hsize.
    destruct (IH (stems_loop used c (set_order stems) false r))
      as (log2 & r' & Hrest).
    rewrite Hrest. by eexists _, _.
Qed.

(** A turn whose loop over the candidates ends with [entry_invalid]
    unset: every candidate has stems, none of them used before, and the
    loop has claimed them all and counted every candidate once. *)
Lemma candidates_loop_valid used candidates r log r' :
  candidates_loop dict used candidates r = (log, Ok r') ->
  entry_invalid r' = false ->
  entry_invalid r = false ∧
  all_pass dict (stems_this_round r ∪ used) candidates ∧
  stems_this_round r' = claimed dict candidates ∪ stems_this_round r ∧
  (Forall (fun c => 3 <= string_size c) candidates ->
   0 <= score_this_round r ->
   score_this_round r + gain candidates < 2 ^ 31 ->
   score_this_round r' = score_this_round r + gain candidates).
Proof.
  revert r log. induction candidates as [|c candidates IH]; intros r log.
  { intros [= _ <-] Hr. split_and4; [done|done| |].
    - change (claimed dict []) with (∅ : gset string). set_solver.
    - intros _ _ _. change (gain []) with 0. lia. }
  cbn [candidates_loop].
  intros (log1 & stems & log2 & Hstems & Hrest & _)%bind_inv_ok Hr'.
  revert Hrest. cbv beta. destruct (size stems =? 0)%nat eqn:Hsize; intros Hrest.
  { injection Hrest as _ <-. done. }
  destruct (IH _ _ Hrest Hr') as (Hr1 & Hall & Hclaimed & Hscore).
  destruct (stems_loop_valid _ _ _ _ _ Hr1) as (Hr & Hfresh & Hround & Hbump).
  assert (stems ≠ ∅) as Hne.
  { intros Hempty%size_zero_empty. congruence. }
  rewrite (claimed_cons c), (stems_of_ok _ _ _ Hstems).
  split_and4.
  - done.
  - cbn [all_pass]. rewrite (stems_of_ok _ _ _ Hstems).
    split; [done|]. split.
    + intros stem Hin [Hround'|Hused]%elem_of_union;
        apply elem_of_set_order, Hfresh in Hin; tauto.
    + by rewrite Hround, list_to_set_set_order, <-(assoc_L (∪)) in Hall.
  - rewrite Hclaimed, Hround, list_to_set_set_order. set_solver.
  - intros [Hc Hcs]%Forall_cons Htotal Hbound. rewrite gain_cons in Hbound.
    pose proof (gain_nonneg _ Hcs).
    destruct (set_order stems) as [|stem stems'] eqn:Horder.
    { by apply set_order_nil in Horder. }
    rewrite wrap_exact in Hbump by lia.
    rewrite Hscore, Hbump, gain_cons; [lia|done|lia|lia].
Qed.

Lemma all_pass_stems used candidates c :
  all_pass dict used candidates -> c ∈ candidates ->
  stems_of dict c ≠ ∅ ∧ stems_of dict c ## used.
Proof.
  intros Hpass Hc. revert used Hpass.
  induction Hc as [c candidates|c c' candidates _ IH]; intros used;
    cbn [all_pass]; intros (Hne & Hfresh & Hpass); [done|].
  destruct (IH _ Hpass). split; [done|set_solver].
Qed.

Lemma stems_of_nonempty_size c : stems_of dict c ≠ ∅ -> string_size c < 128.
Proof.
  intros Hne. destruct (Z.lt_ge_cases (string_size c) 128) as [|Hge]; [done|].
  unfold stems_of in Hne. by rewrite (stems_from_str_throw _ _ Hge) in Hne.
Qed.

Lemma stems_of_nonempty_ok c :
  stems_of dict c ≠ ∅ -> ∃ log, stems_from_str dict c = (log, Ok (stems_of dict c)).
Proof.
  unfold stems_of, result. destruct (stems_from_str dict c) as [log [stems|what]];
    cbn; [by eexists|done].
Qed.

(** The converse: candidates that all pass leave [entry_invalid] unset. *)
Lemma candidates_loop_pass used candidates r :
  all_pass dict (stems_this_round r ∪ used) candidates ->
  entry_invalid r = false ->
  ∃ log r', candidates_loop dict used candidates r = (log, Ok r') ∧
            entry_invalid r' = false.
Proof.
  revert r. induction candidates as [|c candidates IH]; intros r.
  { intros _ Hr. by eexists _, _. }
  cbn [all_pass candidates_loop]. intros (Hne & Hfresh & Hpass) Hr.
  destruct (stems_of_nonempty_ok _ Hne) as [log1 Hstems].
  erewrite bind_ok by done.
  destruct (size (stems_of dict c) =? 0)%nat eqn:Hsize.
  { by apply size_zero_empty in Hsize. }
  set (r1 := stems_loop used c (set_order (stems_of dict c)) false r).
  assert (entry_invalid r1 = false) as Hr1.
  { unfold r1. rewrite stems_loop_fresh; [done|apply NoDup_set_order|].
    intros stem Hin%elem_of_set_order. set_solver. }
  destruct (stems_loop_valid _ _ _ _ _ Hr1) as (_ & _ & Hround & _).
  fold r1 in Hround. rewrite list_to_set_set_order in Hround.
  destruct (IH r1) as (log2 & r' & Hrest & Hr'); [|done|].
  { by rewrite Hround, <-(assoc_L (∪)). }
  unfold queries, result. rewrite Hrest. by eexists _, _.
Qed.

End Turn.

(** ** One round of [play] *)

Section Play.

Variable dict : oracle.

(** How each outcome of a round relates the state after it to the state
    before it. *)
Lemma play_round_inv st line log o st' :
  play_round dict st line = (log, Ok (o, st')) ->
  match o with
  | Paged | Helped | Rejected _ => st' = st
  | Quit =>
    st' = {| score := bonus_loop (set_order (current st)) (score st);
             used_stems := used_stems st; current := current st;
             prior := prior st |}
  | Committed =>
    ∃ chosen start candidates r,
      strsep line = (chosen, start) ∧
      chosen ∈ current st ∧
      read_candidates start [] = inr candidates ∧
      candidates ≠ [] ∧
      is_one_less_than (word_of chosen) candidates = true ∧
      candidates_loop dict (used_stems st) candidates
        {| entry_invalid := false; shown_err := None;
           score_this_round := 0; stems_this_round := ∅ |} = (log, Ok r) ∧
      entry_invalid r = false ∧
      st' = {| score := score st + score_this_round r;
               used_stems := stems_this_round r ∪ used_stems st;
               current := list_to_set candidates ∪ (current st ∖ {[chosen]});
               prior := {[chosen]} ∪ prior st |}
  end.
Proof.
  unfold play_round.
  destruct (_ || _ || _ || _); [by intros [= _ <- <-]|].
  destruct (String.eqb (to_lower line) "q"); [by intros [= _ <- <-]|].
  destruct (_ || _); [by intros [= _ <- <-]|].
  destruct (strsep line) as [chosen start].
  destruct (bool_decide (chosen ∉ current st)) eqn:Hchosen; [by intros [= _ <- <-]|].
  apply bool_decide_eq_false in Hchosen. apply dec_stable in Hchosen.
  destruct start as [|token start]; [by intros [= _ <- <-]|].
  destruct (read_candidates (token :: start) []) as [shown|candidates] eqn:Hread;
    [by intros [= _ <- <-]|].
  destruct (is_one_less_than (word_of chosen) candidates) eqn:Hanagram;
    [|by intros [= _ <- <-]].
  cbn [negb].
  intros (log1 & r & log2 & Hloop & Hend & ->)%bind_inv_ok.
  revert Hend. cbv beta. destruct (entry_invalid r) eqn:Hr.
  - by intros [= _ <- <-].
  - intros [= <- <- <-]. rewrite app_nil_r.
    eexists _, _, _, _. split_and4; [done|done|done|]. split; [|done].
    apply read_candidates_inr in Hread as [-> _]. done.
Qed.

(** A line with a second token is none of the one-letter commands. *)
Lemma strsep_not_command line chosen token more (c : ascii) :
  strsep line = (chosen, token :: more) -> c ≠ " "%char ->
  String.eqb (to_lower line) (String c EmptyString) = false.
Proof.
  intros Hsep Hc. destruct line as [|a [|b line]]; [done| |].
  - cbn in Hsep. destruct (Ascii.eqb_spec a " ") as [->|]; [|done].
    apply String.eqb_neq. vm_compute. congruence.
  - cbn [to_lower String.eqb]. apply andb_false_r.
Qed.

(** The converse of [play_round_inv] for [Committed]: a turn that
    passes every check is committed. *)
Lemma play_round_commits st line chosen start candidates :
  strsep line = (chosen, start) ->
  chosen ∈ current st ->
  read_candidates start [] = inr candidates ->
  candidates ≠ [] ->
  is_one_less_than (word_of chosen) candidates = true ->
  all_pass dict (used_stems st) candidates ->
  ∃ log r,
    candidates_loop dict (used_stems st) candidates
      {| entry_invalid := false; shown_err := None;
         score_this_round := 0; stems_this_round := ∅ |} = (log, Ok r) ∧
    entry_invalid r = false ∧
    play_round dict st line =
      (log, Ok (Committed,
                {| score := score st + score_this_round r;
                   used_stems := stems_this_round r ∪ used_stems st;
                   current := list_to_set candidates ∪ (current st ∖ {[chosen]});
                   prior := {[chosen]} ∪ prior st |})).
Proof.
  intros Hsep Hchosen Hread Hne Hanagram Hpass.
  destruct start as [|token start].
  { cbn in Hread. congruence. }
  destruct (candidates_loop_pass dict (used_stems st) candidates
              {| entry_invalid := false; shown_err := None;
                 score_this_round := 0; stems_this_round := ∅ |})
    as (log & r & Hloop & Hr); [|done|].
  { cbn [stems_this_round]. by rewrite (left_id_L ∅ (∪)). }
  exists log, r. split; [done|]. split; [done|].
  unfold play_round.
  rewrite !(strsep_not_command _ _ _ _ _ Hsep) by done. cbn [orb].
  rewrite Hsep, bool_decide_eq_false_2 by (by intros []).
  rewrite Hread, Hanagram. cbn [negb].
  erewrite bind_ok by done. rewrite Hr.
  unfold queries, result, ret. cbn. by rewrite app_nil_r.
Qed.

Lemma not_command line :
  to_lower line ∉ commands ->
  String.eqb (to_lower line) "," || String.eqb (to_lower line) "." ||
  String.eqb (to_lower line) "<" || String.eqb (to_lower line) ">" = false ∧
  String.eqb (to_lower line) "q" = false ∧
  String.eqb (to_lower line) "?" || String.eqb (to_lower line) "h" = false.
Proof.
  unfold commands. rewrite !not_elem_of_cons. intros (?&?&?&?&?&?&?&_).
  rewrite !(proj2 (String.eqb_neq _ _)) by done. done.
Qed.

(** C2: a rejected turn, whatever the message it is rejected with,
    leaves the score, the used stems and the two pools as they were;
    and a turn (of tokens short enough for [stems_from_str] not to
    throw) is rejected, the state being returned as it was, for each of
    the reasons of the specification: chosen word not in [current], no
    candidate, candidate not alphabetic or too short, failed anagram
    check, candidate without stems, stem used before or claimed earlier
    in the same turn. *)
Theorem rejected_turn_unchanged st line chosen start :
  strsep line = (chosen, start) ->
  (∀ log shown st',
     play_round dict st line = (log, Ok (Rejected shown, st')) ->
     score st' = score st ∧ used_stems st' = used_stems st ∧
     current st' = current st ∧ prior st' = prior st) ∧
  (to_lower line ∉ commands ->
   Forall (fun token => string_size token < 128) start ->
   turn_fails dict st chosen start ->
   ∃ log shown, play_round dict st line = (log, Ok (Rejected shown, st))).
Proof.
  intros Hsep. split.
  { intros log shown st' Hplay. by apply play_round_inv in Hplay as ->. }
  intros (Hpage & Hquit & Hhelp)%not_command Hsizes Hfails.
  unfold play_round. rewrite Hpage, Hquit, Hhelp, Hsep.
  destruct (bool_decide (chosen ∉ current st)) eqn:Hchosen; [by eexists _, _|].
  apply bool_decide_eq_false in Hchosen. apply dec_stable in Hchosen.
  destruct start as [|token start]; [by eexists _, _|].
  destruct (read_candidates (token :: start) []) as [shown|candidates] eqn:Hread;
    [by eexists _, _|].
  destruct (is_one_less_than (word_of chosen) candidates) eqn:Hanagram;
    cbn [negb]; [|by eexists _, _].
  assert (Forall (fun c => string_size c < 128) candidates) as Hsizes'.
  { apply read_candidates_inr in Hread as [-> _]. rewrite app_nil_l.
    apply Forall_fmap. eapply Forall_impl; [done|].
    intros token'. cbn. by rewrite string_size_to_lower. }
  destruct (candidates_loop_ok dict (used_stems st) candidates
              {| entry_invalid := false; shown_err := None;
                 score_this_round := 0; stems_this_round := ∅ |} Hsizes')
    as (log & r & Hloop).
  erewrite bind_ok by done.
  destruct (entry_invalid r) eqn:Hr.
  { unfold queries, result, ret. cbn. by eexists _, _. }
  destruct (candidates_loop_valid _ _ _ _ _ _ Hloop Hr) as (_ & Hpass & _).
  cbn [stems_this_round] in Hpass. rewrite (left_id_L ∅ (∪)) in Hpass.
  destruct Hfails as [?|[?|[[shown ?]|(candidates' & ? & [?|?])]]];
    [done|done|congruence|..];
    assert (candidates' = candidates) as -> by congruence; [congruence|done].
Qed.

Lemma gain_le_line line chosen start candidates :
  strsep line = (chosen, start) ->
  read_candidates start [] = inr candidates ->
  Forall (fun c => 3 <= string_size c) candidates ∧
  gain candidates <= string_size line.
Proof.
  intros Hsep%strsep_size [-> Hall]%read_candidates_inr.
  rewrite app_nil_l. split; [done|].
  rewrite gain_total_size, total_size_to_lower.
  pose proof (string_size_nonneg chosen). lia.
Qed.

(** C4: a turn that passes every check is committed, and the commit
    adds [len(candidate) - 3] to the score once for each candidate,
    merges the stems of all the candidates into the used stems, moves
    the chosen word from [current] to [prior] and adds every candidate
    to [current]. *)
Theorem commit_effect st line chosen start candidates :
  fits_input line ->
  strsep line = (chosen, start) ->
  chosen ∈ current st ->
  read_candidates start [] = inr candidates ->
  candidates ≠ [] ->
  is_one_less_than (word_of chosen) candidates = true ->
  all_pass dict (used_stems st) candidates ->
  ∃ log st',
    play_round dict st line = (log, Ok (Committed, st')) ∧
    score st' = score st + gain candidates ∧
    used_stems st' = used_stems st ∪ claimed dict candidates ∧
    current st' = (current st ∖ {[chosen]}) ∪ list_to_set candidates ∧
    prior st' = prior st ∪ {[chosen]}.
Proof.
  intros Hfits Hsep Hchosen Hread Hne Hanagram Hpass.
  destruct (play_round_commits _ _ _ _ _ Hsep Hchosen Hread Hne Hanagram Hpass)
    as (log & r & Hloop & Hr & Hplay).
  destruct (candidates_loop_valid _ _ _ _ _ _ Hloop Hr)
    as (_ & _ & Hclaimed & Hscore).
  destruct (gain_le_line _ _ _ _ Hsep Hread) as [Hsizes Hgain].
  cbn [score_this_round stems_this_round] in *.
  rewrite Hscore in Hplay by (done || unfold fits_input in Hfits; lia).
  rewrite Hclaimed in Hplay. eexists _, _. split; [done|].
  cbn [score used_stems current prior]. split; [lia|].
  split; [set_solver|]. split; set_solver.
Qed.

End Play.

(** ** The invariant *)

Lemma bonus_loop_gain words total :
  Forall (fun w => 3 <= string_size w < 128) words ->
  bonus_loop words total = total + gain words.
Proof.
  intros Hall. revert total.
  induction Hall as [|w words Hw _ IH]; intros total.
  { change (gain []) with 0. cbn. lia. }
  cbn [bonus_loop]. rewrite IH, gain_cons. unfold wrap_size_t.
  rewrite Z.mod_small; lia.
Qed.

Lemma total_size_pair words c w :
  c ∈ words -> w ∈ words -> c ≠ w ->
  string_size c + string_size w <= total_size words.
Proof.
  induction words as [|x words IH]; [by intros ?%elem_of_nil|].
  rewrite total_size_cons.
  intros [->|Hc]%elem_of_cons [->|Hw]%elem_of_cons Hne; try done.
  - apply total_size_elem_of in Hw. lia.
  - apply total_size_elem_of in Hc. lia.
  - specialize (IH Hc Hw Hne). pose proof (string_size_nonneg x). lia.
Qed.

Section Invariant.

Variable dict : oracle.

Lemma stems_of_claimed c candidates :
  c ∈ candidates -> stems_of dict c ⊆ claimed dict candidates.
Proof.
  induction 1 as [c candidates|c c' candidates _ IH]; rewrite claimed_cons;
    set_solver.
Qed.

Lemma seed_inv w log st :
  string_size w = 3 -> seed dict new_game w = (log, Ok st) -> inv dict st.
Proof.
  intros Hw. unfold seed.
  intros (log1 & stems & log2 & Hstems & [= _ <-] & _)%bind_inv_ok.
  apply stems_of_ok in Hstems.
  split; cbn [score used_stems current prior new_game].
  - done.
  - intros w' Hw'. assert (w' = w) as -> by set_solver. lia.
  - intros w' Hw'. assert (w' = w) as -> by set_solver. set_solver.
  - set_solver.
Qed.

Lemma started_inv st : started dict st -> inv dict st.
Proof.
  intros [input_arr choice log st' Hchoice Hsetup Hcurrent].
  revert Hsetup. unfold setup_round, lowercase_and_validate.
  destruct (all_of isalpha (to_lower input_arr)); [|by intros [= _ <-]].
  destruct (Z.eqb_spec (string_size (to_lower input_arr)) 3) as [Hsize|_].
  - unfold ask_spell, bind.
    destruct (spell dict (to_lower input_arr)).
    + destruct (seed dict new_game (to_lower input_arr)) as [log2 res] eqn:Hseed.
      intros [= _ ->]. by eapply seed_inv.
    + destruct (_ || _).
      * destruct (seed dict new_game choice) as [log2 res] eqn:Hseed.
        intros [= _ ->]. eapply seed_inv; [|done]. unfold string_size. lia.
      * by intros [= _ <-].
  - unfold ret, bind. destruct (_ || _).
    + destruct (seed dict new_game choice) as [log2 res] eqn:Hseed.
      intros [= _ ->]. eapply seed_inv; [|done]. unfold string_size. lia.
    + by intros [= _ <-].
Qed.

(** No candidate of a turn that passes is already in a pool. *)
Lemma passing_candidate_fresh st candidates c :
  inv dict st -> all_pass dict (used_stems st) candidates -> c ∈ candidates ->
  c ∉ current st ∪ prior st.
Proof.
  intros Hinv Hpass Hc Hpool.
  destruct (all_pass_stems _ _ _ _ Hpass Hc) as [Hne Hfresh].
  apply (inv_stems _ _ Hinv) in Hpool. apply Hne. set_solver.
Qed.

Lemma play_round_inv_Committed st line log st' :
  fits_input line ->
  play_round dict st line = (log, Ok (Committed, st')) ->
  ∃ chosen start candidates,
    strsep line = (chosen, start) ∧
    chosen ∈ current st ∧
    read_candidates start [] = inr candidates ∧
    candidates ≠ [] ∧
    is_one_less_than (word_of chosen) candidates = true ∧
    all_pass dict (used_stems st) candidates ∧
    Forall (fun c => 3 <= string_size c < 128) candidates ∧
    st' = {| score := score st + gain candidates;
             used_stems := claimed dict candidates ∪ used_stems st;
             current := list_to_set candidates ∪ (current st ∖ {[chosen]});
             prior := {[chosen]} ∪ prior st |}.
Proof.
  intros Hfits Hplay. pose proof (play_round_inv _ _ _ _ _ _ Hplay) as Hinv.
  cbn beta iota in Hinv.
  destruct Hinv as (chosen & start & candidates & r & Hsep & Hchosen & Hread &
                    Hne & Hanagram & Hloop & Hr & ->).
  destruct (candidates_loop_valid _ _ _ _ _ _ Hloop Hr)
    as (_ & Hpass & Hclaimed & Hscore).
  destruct (gain_le_line _ _ _ _ Hsep Hread) as [Hsizes Hgain].
  cbn [score_this_round stems_this_round] in *.
  rewrite (left_id_L ∅ (∪)) in Hpass. rewrite (right_id_L ∅ (∪)) in Hclaimed.
  rewrite Hscore, Hclaimed by (done || unfold fits_input in Hfits; lia).
  exists chosen, start, candidates. split_and4; [done|done|done|].
  split; [done|].
  split_and4; [done|done| |by rewrite Z.add_0_l].
  apply Forall_forall. intros c Hc. split.
  - by eapply Forall_forall in Hsizes.
  - eapply stems_of_nonempty_size, all_pass_stems; done.
Qed.

Lemma play_round_preserves_inv st line log o st' :
  inv dict st -> fits_input line ->
  play_round dict st line = (log, Ok (o, st')) -> o ≠ Quit -> inv dict st'.
Proof.
  intros Hinv Hfits Hplay Ho. destruct o; try done;
    try (by apply play_round_inv in Hplay as ->).
  destruct (play_round_inv_Committed _ _ _ _ Hfits Hplay)
    as (chosen & start & candidates & Hsep & Hchosen & Hread & _ & _ & Hpass &
        Hsizes & ->).
  pose proof (fun c => passing_candidate_fresh _ _ c Hinv Hpass) as Hfresh.
  destruct Hinv as [Hscore Hsize Hstems Hdisjoint].
  split; cbn [score used_stems current prior].
  - assert (0 <= gain candidates); [|lia].
    apply gain_nonneg. eapply Forall_impl; [done|]. cbn. lia.
  - intros w Hw. destruct (decide (w ∈ candidates)) as [Hc|Hc].
    + by eapply Forall_forall in Hsizes.
    + apply Hsize. set_solver.
  - intros w Hw. destruct (decide (w ∈ candidates)) as [Hc|Hc].
    + apply stems_of_claimed in Hc. set_solver.
    + etrans; [apply Hstems|]; set_solver.
  - intros w Hcur Hpri. destruct (decide (w ∈ candidates)) as [Hc|Hc].
    + apply (Hfresh w Hc). set_solver.
    + set_solver.
Qed.

Lemma reachable_inv st : reachable dict st -> inv dict st.
Proof.
  induction 1 as [st Hstart|st st' _ IH (line & log & o & Hfits & Hplay & Ho)].
  - by apply started_inv.
  - by eapply play_round_preserves_inv.
Qed.

Lemma rtc_step_reachable st st' :
  reachable dict st -> rtc (step dict) st st' -> reachable dict st'.
Proof. induction 2; eauto using reachable_step. Qed.

End Invariant.

(** ** Turns that cannot pass *)

Section Rejection.

Variable dict : oracle.

(** A turn with candidates whose stems can all be computed, and which
    do not all pass, is rejected. *)
Lemma play_round_rejects st line chosen start :
  strsep line = (chosen, start) -> start ≠ [] ->
  (∀ candidates,
     chosen ∈ current st ->
     read_candidates start [] = inr candidates ->
     is_one_less_than (word_of chosen) candidates = true ->
     Forall (fun c => string_size c < 128) candidates ∧
     ¬ all_pass dict (used_stems st) candidates) ->
  ∃ log shown, play_round dict st line = (log, Ok (Rejected shown, st)).
Proof.
  intros Hsep Hstart Hbad. unfold play_round.
  destruct start as [|token start]; [done|].
  rewrite !(strsep_not_command _ _ _ _ _ Hsep) by done. cbn [orb].
  rewrite Hsep. destruct (bool_decide (chosen ∉ current st)) eqn:Hchosen.
  { by eexists _, _. }
  apply bool_decide_eq_false in Hchosen. apply dec_stable in Hchosen.
  destruct (read_candidates (token :: start) []) as [shown|candidates] eqn:Hread.
  { by eexists _, _. }
  destruct (is_one_less_than (word_of chosen) candidates) eqn:Hanagram;
    cbn [negb]; [|by eexists _, _].
  destruct (Hbad _ Hchosen eq_refl Hanagram) as [Hsizes Hfail].
  destruct (candidates_loop_ok dict (used_stems st) candidates
              {| entry_invalid := false; shown_err := None;
                 score_this_round := 0; stems_this_round := ∅ |} Hsizes)
    as (log & r & Hloop).
  erewrite bind_ok by done.
  destruct (entry_invalid r) eqn:Hr.
  { unfold queries, result, ret. cbn. by eexists _, _. }
  destruct (candidates_loop_valid _ _ _ _ _ _ Hloop Hr) as (_ & Hpass & _).
  cbn [stems_this_round] in Hpass. rewrite (left_id_L ∅ (∪)) in Hpass. done.
Qed.

(** The length test of the anagram check, for strings that fit. *)
Lemma anagram_total_size chosen candidates :
  is_one_less_than (word_of chosen) candidates = true ->
  string_size chosen < 2 ^ 63 -> total_size candidates < 2 ^ 63 ->
  total_size candidates = string_size chosen + 1.
Proof.
  unfold is_one_less_than. cbn [sorted word_of].
  rewrite string_size_join, string_size_sort_chars.
  destruct (Z.eqb_spec (wrap_size_t (total_size candidates - string_size chosen)) 1)
    as [Hwrap|]; [|done].
  intros _ ? ?. pose proof (string_size_nonneg chosen).
  pose proof (total_size_nonneg candidates). unfold wrap_size_t in Hwrap.
  change (2 ^ 63) with 9223372036854775808 in *.
  change (2 ^ 64) with 18446744073709551616 in *.
  Z.to_euclidean_division_equations. lia.
Qed.

(** A turn that submits a word of the pools as a candidate is
    rejected. *)
Lemma pool_candidate_rejected st line chosen start w :
  inv dict st -> fits_input line ->
  strsep line = (chosen, start) -> w ∈ to_lower <$> start ->
  w ∈ current st ∪ prior st ->
  ∃ log shown, play_round dict st line = (log, Ok (Rejected shown, st)).
Proof.
  intros Hinv Hfits Hsep Hw Hpool.
  eapply play_round_rejects; [done|by intros ->; apply elem_of_nil in Hw|].
  intros candidates Hchosen Hread Hanagram.
  destruct (gain_le_line _ _ _ _ Hsep Hread) as [Hsizes _].
  apply read_candidates_inr in Hread as [-> _]. rewrite app_nil_l in *.
  split; [|by intros Hpass; eapply passing_candidate_fresh].
  assert (total_size (to_lower <$> start) = string_size chosen + 1) as Htotal.
  { pose proof (strsep_size _ _ _ Hsep). pose proof (string_size_nonneg chosen).
    pose proof (total_size_nonneg start). unfold fits_input in Hfits.
    apply anagram_total_size; rewrite ?total_size_to_lower; [done|lia..]. }
  pose proof (inv_size _ _ Hinv chosen) as Hchosen_size.
  pose proof (inv_size _ _ Hinv w Hpool) as Hw_size.
  apply Forall_forall. intros c Hc.
  destruct (decide (c = w)) as [->|Hne]; [lia|].
  pose proof (total_size_pair _ _ _ Hc Hw Hne).
  assert (chosen ∈ current st ∪ prior st) as Hin by set_solver.
  specialize (Hchosen_size Hin). lia.
Qed.

End Rejection.

(** ** The game along its runs *)

Section Runs.

Variable dict : oracle.

(** C10: in every state that the game reaches, the stems of every word
    of the two pools are among the used stems; so a turn that submits a
    word of the pools that has a stem as a candidate is rejected. *)
Theorem pool_stems_are_used st :
  reachable dict st ->
  (∀ w, w ∈ current st ∪ prior st -> stems_of dict w ⊆ used_stems st) ∧
  (∀ line chosen start w,
     fits_input line ->
     strsep line = (chosen, start) -> w ∈ to_lower <$> start ->
     w ∈ current st ∪ prior st -> stems_of dict w ≠ ∅ ->
     ∃ log shown, play_round dict st line = (log, Ok (Rejected shown, st))).
Proof.
  intros Hinv%reachable_inv. split; [apply Hinv|].
  intros line chosen start w Hfits Hsep Hw Hpool _.
  by eapply pool_candidate_rejected.
Qed.

(** C9: the score is never negative and no round of the game lowers
    it: a committed turn adds the non-negative [len - 3] of each of its
    candidates, the quit command that of each word of [current], and
    every other round leaves the score alone. *)
Theorem score_never_decreases st line log o st' :
  reachable dict st -> fits_input line ->
  play_round dict st line = (log, Ok (o, st')) ->
  0 <= score st ∧ score st <= score st' ∧
  match o with
  | Committed =>
    ∃ candidates,
      read_candidates (strsep line).2 [] = inr candidates ∧
      Forall (fun c => 0 <= string_size c - 3) candidates ∧
      score st' = score st + gain candidates
  | Quit =>
    Forall (fun w => 0 <= string_size w - 3) (elements (current st)) ∧
    score st' = score st + gain (elements (current st))
  | Paged | Helped | Rejected _ => score st' = score st
  end.
Proof.
  intros Hinv%reachable_inv Hfits Hplay.
  split; [apply Hinv|]. destruct o.
  - by apply play_round_inv in Hplay as ->.
  - by apply play_round_inv in Hplay as ->.
  - apply play_round_inv in Hplay as ->. cbn [score].
    assert (Forall (fun w => 3 <= string_size w < 128) (elements (current st)))
      as Hsizes.
    { apply Forall_forall. intros w Hw%elem_of_elements.
      apply (inv_size _ _ Hinv). set_solver. }
    assert (Forall (fun w => 3 <= string_size w < 128) (set_order (current st)))
      as Hordered.
    { unfold set_order. by rewrite merge_sort_Permutation. }
    rewrite (bonus_loop_gain _ _ Hordered).
    rewrite (gain_Permutation (set_order (current st)) (elements (current st)))
      by apply merge_sort_Permutation.
    assert (Forall (fun w => 0 <= string_size w - 3) (elements (current st)))
      as Hgains.
    { eapply Forall_impl; [done|]. cbn. lia. }
    split; [|done].
    assert (0 <= gain (elements (current st))); [|lia].
    apply gain_nonneg. eapply Forall_impl; [apply Hsizes|]. cbn. lia.
  - by apply play_round_inv in Hplay as ->.
  - destruct (play_round_inv_Committed _ _ _ _ _ Hfits Hplay)
      as (chosen & start & candidates & Hsep & _ & Hread & _ & _ & _ &
          Hsizes & ->).
    cbn [score]. rewrite Hsep. cbn [snd].
    assert (Forall (fun c => 0 <= string_size c - 3) candidates) as Hgains.
    { eapply Forall_impl; [done|]. cbn. lia. }
    split; [|by exists candidates].
    assert (0 <= gain candidates); [|lia].
    apply gain_nonneg. eapply Forall_impl; [apply Hsizes|]. cbn. lia.
Qed.

(** C7: the quit command adds [len(word) - 3] to the score for every
    word of [current], once per word, whatever the ledger of used stems
    holds and whatever the dictionary says of the words; for a pool
    holding "acts" alone the bonus is 1. *)
Theorem quit_bonus st (any_dict : oracle) (ledger : gset string) :
  reachable dict st ->
  NoDup (elements (current st)) ∧
  (∀ w, w ∈ elements (current st) ↔ w ∈ current st) ∧
  Forall (fun w => 0 <= string_size w - 3) (elements (current st)) ∧
  play_round any_dict
    {| score := score st; used_stems := ledger; current := current st;
       prior := prior st |} "q"
  = ([], Ok (Quit, {| score := score st + gain (elements (current st));
                      used_stems := ledger; current := current st;
                      prior := prior st |})) ∧
  gain (elements ({["acts"]} : gset string)) = 1.
Proof.
  intros Hinv%reachable_inv.
  assert (Forall (fun w => 3 <= string_size w < 128) (elements (current st)))
    as Hsizes.
  { apply Forall_forall. intros w Hw%elem_of_elements.
    apply (inv_size _ _ Hinv). set_solver. }
  split; [apply NoDup_elements|]. split; [intros w; apply elem_of_elements|].
  split; [eapply Forall_impl; [done|]; cbn; lia|].
  split; [|by rewrite elements_singleton].
  unfold play_round. cbn [to_lower String.eqb orb current score used_stems prior].
  change (String.eqb (to_lower "q") ",") with false.
  change (String.eqb (to_lower "q") ".") with false.
  change (String.eqb (to_lower "q") "<") with false.
  change (String.eqb (to_lower "q") ">") with false.
  change (String.eqb (to_lower "q") "q") with true.
  cbn [orb]. unfold ret.
  rewrite bonus_loop_gain by (unfold set_order; by rewrite merge_sort_Permutation).
  by rewrite (gain_Permutation (set_order (current st)) (elements (current st)))
    by apply merge_sort_Permutation.
Qed.

(** C8: a round retires a word, moving it from [current] to [prior],
    exactly when it commits a turn that has the word as its source;
    [prior] never loses a word; and a word of [prior] stays there and
    out of [current] in every later state, in which no round can retire
    it again and every turn that submits it as a candidate is
    rejected. *)
Theorem retired_for_good st line log o st' st'' w :
  reachable dict st -> fits_input line ->
  play_round dict st line = (log, Ok (o, st')) -> o ≠ Quit ->
  rtc (step dict) st' st'' ->
  (retired w st st' ↔ o = Committed ∧ (strsep line).1 = w) ∧
  (retired w st st' -> (w ∈ current st) ∧ (w ∉ current st')) ∧
  prior st ⊆ prior st' ∧ prior st' ⊆ prior st'' ∧
  (w ∈ prior st' ->
   (w ∉ current st') ∧ (w ∉ current st'') ∧
   (∀ st''', ¬ retired w st'' st''') ∧
   (∀ line' chosen start,
      fits_input line' -> strsep line' = (chosen, start) ->
      w ∈ to_lower <$> start ->
      ∃ log' shown,
        play_round dict st'' line' = (log', Ok (Rejected shown, st'')))).
Proof.
  intros Hreach Hfits Hplay Ho Hlater.
  assert (reachable dict st') as Hreach'.
  { eapply reachable_step; [done|]. by exists line, log, o. }
  assert (reachable dict st'') as Hreach'' by (by eapply rtc_step_reachable).
  pose proof (reachable_inv _ _ Hreach) as Hinv.
  pose proof (reachable_inv _ _ Hreach') as Hinv'.
  pose proof (reachable_inv _ _ Hreach'') as Hinv''.
  assert (prior st' ⊆ prior st'') as Hmono.
  { clear -Hlater. induction Hlater as [|st1 st2 st3 Hstep _ IH]; [done|].
    etrans; [|done]. destruct Hstep as (l & lg & o & _ & Hplay & _).
    pose proof (play_round_inv _ _ _ _ _ _ Hplay) as Hcase.
    destruct o; cbn beta iota in Hcase; try (by subst).
    destruct Hcase as (? & ? & ? & ? & _ & _ & _ & _ & _ & _ & _ & ->).
    cbn. set_solver. }
  assert (retired w st st' ↔ o = Committed ∧ (strsep line).1 = w) as Hiff.
  { unfold retired. destruct o; try done;
      try (apply play_round_inv in Hplay as ->; by intuition).
    destruct (play_round_inv_Committed _ _ _ _ _ Hfits Hplay)
      as (chosen & start & candidates & Hsep & Hchosen & _ & _ & _ & _ & _ & ->).
    rewrite Hsep. cbn [fst prior]. split.
    - intros [Hold Hnew]. split; [done|]. set_solver.
    - intros [_ <-]. split; [|set_solver].
      intros Hpri. by apply (inv_disjoint _ _ Hinv chosen). }
  split; [done|]. split.
  { intros Hret. pose proof Hret as [Hcommitted Hsource]%Hiff. subst o.
    destruct (play_round_inv_Committed _ _ _ _ _ Hfits Hplay)
      as (chosen & start & candidates & Hsep & Hchosen & _ & _ & _ & _ & _ & Hst').
    rewrite Hsep in Hsource. cbn in Hsource. subst chosen. split; [done|].
    destruct Hret as [_ Hnew]. intros Hcur.
    by apply (inv_disjoint _ _ Hinv' w). }
  split.
  { pose proof (play_round_inv _ _ _ _ _ _ Hplay) as Hcase.
    destruct o; cbn beta iota in Hcase; try (by subst).
    destruct Hcase as (? & ? & ? & ? & _ & _ & _ & _ & _ & _ & _ & ->).
    cbn. set_solver. }
  split; [done|].
  intros Hpri. split.
  { intros Hcur. by apply (inv_disjoint _ _ Hinv' w). }
  split.
  { intros Hcur. apply (inv_disjoint _ _ Hinv'' w); [done|]. by apply Hmono. }
  split.
  { intros st''' [Hold _]. apply Hold. by apply Hmono. }
  intros line' chosen start Hfits' Hsep' Hw.
  eapply pool_candidate_rejected; [done..|].
  apply elem_of_union_r. by apply Hmono.
Qed.

End Runs.

(** ** The engine at work on the small dictionary *)

(** Membership in the pools of the two demo states. *)
Ltac demo_pools :=
  unfold demo_cat, demo_acts; cbn [current prior used_stems]; set_solver.

Lemma run_eq {A} (m : M A) : m = (queries m, result m).
Proof. by destruct m. Qed.

Lemma demo_cat_reachable : reachable demo demo_cat.
Proof.
  apply reachable_start.
  apply (started_intro demo "cat" "rat" (queries (setup_round demo new_game "cat" "rat"))).
  - reflexivity.
  - by vm_compute.
  - apply (non_empty_singleton_L (A := string) (C := gset string) "cat").
Qed.

Lemma demo_cat_acts :
  play_round demo demo_cat "cat acts"
  = (queries (play_round demo demo_cat "cat acts"), Ok (Committed, demo_acts)).
Proof. by vm_compute. Qed.

Lemma demo_acts_reachable : reachable demo demo_acts.
Proof.
  apply (reachable_step demo demo_cat); [apply demo_cat_reachable|].
  eexists "cat acts", _, Committed. split; [by vm_compute|].
  split; [apply demo_cat_acts|done].
Qed.

Lemma rejected_turn_unchanged_witness :
  ∃ log shown,
    play_round demo demo_cat "cat cats" = (log, Ok (Rejected shown, demo_cat)).
Proof.
  destruct (rejected_turn_unchanged demo demo_cat "cat cats" "cat" ["cats"])
    as [_ Hrejected]; [reflexivity|].
  apply Hrejected.
  - unfold commands. rewrite !not_elem_of_cons.
    repeat (split; [discriminate|]). apply not_elem_of_nil.
  - constructor; [by vm_compute|constructor].
  - right. right. right. exists ["cats"]. split; [reflexivity|]. right.
    cbn [all_pass].
    assert (stems_of demo "cats" = {["cat"]}) as -> by (by vm_compute).
    intros (_ & Hfresh & _). revert Hfresh. demo_pools.
Defined.

Lemma commit_effect_witness :
  ∃ log st',
    play_round demo demo_cat "cat acts" = (log, Ok (Committed, st')) ∧
    score st' = score demo_cat + gain ["acts"] ∧
    used_stems st' = used_stems demo_cat ∪ claimed demo ["acts"] ∧
    current st' = (current demo_cat ∖ {["cat"]}) ∪ list_to_set ["acts"] ∧
    prior st' = prior demo_cat ∪ {["cat"]}.
Proof.
  apply (commit_effect demo demo_cat "cat acts" "cat" ["acts"] ["acts"]).
  - by vm_compute.
  - reflexivity.
  - demo_pools.
  - reflexivity.
  - discriminate.
  - by vm_compute.
  - cbn [all_pass].
    assert (stems_of demo "acts" = {["act"]}) as -> by (by vm_compute).
    split; [apply (non_empty_singleton_L (A := string) (C := gset string) "act")|].
    split; [|exact I]. demo_pools.
Defined.

Lemma quit_bonus_witness :
  play_round demo demo_acts "q"
  = ([], Ok (Quit, {| score := score demo_acts + gain (elements (current demo_acts));
                      used_stems := used_stems demo_acts;
                      current := current demo_acts; prior := prior demo_acts |})) ∧
  gain (elements (current demo_acts)) = 1.
Proof.
  destruct (quit_bonus demo demo_acts demo (used_stems demo_acts)
              demo_acts_reachable) as (_ & _ & _ & Hquit & Hone).
  split; [exact Hquit|exact Hone].
Defined.

Lemma retired_for_good_witness :
  retired "cat" demo_cat demo_acts ∧
  "cat" ∈ prior demo_acts ∧ "cat" ∉ current demo_acts.
Proof.
  destruct (retired_for_good demo demo_cat "cat acts"
              (queries (play_round demo demo_cat "cat acts")) Committed
              demo_acts demo_acts "cat")
    as (Hiff & _ & _ & _ & Hlater).
  - apply demo_cat_reachable.
  - by vm_compute.
  - apply demo_cat_acts.
  - discriminate.
  - apply rtc_refl.
  - assert ("cat" ∈ prior demo_acts) as Hpri by demo_pools.
    split; [apply Hiff; split; reflexivity|].
    split; [exact Hpri|]. apply (Hlater Hpri).
Defined.

Lemma score_never_decreases_witness :
  0 <= score demo_cat ∧ score demo_cat <= score demo_acts ∧
  ∃ candidates,
    read_candidates (strsep "cat acts").2 [] = inr candidates ∧
    Forall (fun c => 0 <= string_size c - 3) candidates ∧
    score demo_acts = score demo_cat + gain candidates.
Proof.
  apply (score_never_decreases demo demo_cat "cat acts"
           (queries (play_round demo demo_cat "cat acts")) Committed demo_acts).
  - apply demo_cat_reachable.
  - by vm_compute.
  - apply demo_cat_acts.
Defined.

Lemma pool_stems_are_used_witness :
  stems_of demo "cat" ⊆ used_stems demo_cat ∧
  ∃ log shown,
    play_round demo demo_cat "cat cat" = (log, Ok (Rejected shown, demo_cat)).
Proof.
  destruct (pool_stems_are_used demo demo_cat demo_cat_reachable)
    as [Hstems Hreject].
  assert ("cat" ∈ current demo_cat ∪ prior demo_cat) as Hpool.
  { demo_pools. }
  split; [exact (Hstems "cat" Hpool)|].
  apply (Hreject "cat cat" "cat" ["cat"] "cat").
  - by vm_compute.
  - reflexivity.
  - apply list_elem_of_singleton. reflexivity.
  - exact Hpool.
  - assert (stems_of demo "cat" = {["cat"]}) as -> by (by vm_compute).
    apply (non_empty_singleton_L (A := string) (C := gset string) "cat").
Defined.

(** * Further properties of the code *)

(** ** Words and the anagram check *)

Lemma list_ascii_of_string_append s t :
  list_ascii_of_string (s ++ t)
  = (list_ascii_of_string s ++ list_ascii_of_string t)%list.
Proof.
  induction s as [|c s IH]; [done|].
  change (String c s ++ t) with (String c (s ++ t)).
  cbn [list_ascii_of_string]. by rewrite IH.
Qed.

Lemma list_ascii_of_string_inj s t :
  list_ascii_of_string s = list_ascii_of_string t -> s = t.
Proof.
  intros H. rewrite <-(string_of_list_ascii_of_string s),
    <-(string_of_list_ascii_of_string t). by rewrite H.
Qed.

Lemma join_cons w words : join (w :: words) = w ++ join words.
Proof. done. Qed.

Lemma join_Permutation l1 l2 :
  l1 ≡ₚ l2 ->
  list_ascii_of_string (join l1) ≡ₚ list_ascii_of_string (join l2).
Proof.
  induction 1 as [|w l1 l2 _ IH|w1 w2 l|l1 l2 l3 _ IH1 _ IH2].
  - done.
  - rewrite !join_cons, !list_ascii_of_string_append. by rewrite IH.
  - rewrite !join_cons, !list_ascii_of_string_append.
    rewrite !(assoc_L (++)%list). f_equiv. apply Permutation_app_comm.
  - by etrans.
Qed.

Lemma sort_chars_Permutation s t :
  list_ascii_of_string s ≡ₚ list_ascii_of_string t ->
  sort_chars s = sort_chars t.
Proof.
  intros Hperm. unfold sort_chars. f_equal.
  apply (StronglySorted_unique char_le);
    [apply StronglySorted_merge_sort; apply _..|].
  by rewrite !merge_sort_Permutation.
Qed.

(** X1: the sorted letters that [word::word] caches are the letters of the
    literal in ascending order, and two words cache the same letters
    exactly when their literals are anagrams of each other. *)
Theorem word_sorted_anagram (a b : string) :
  StronglySorted char_le (list_ascii_of_string (sorted (word_of a))) ∧
  list_ascii_of_string (sorted (word_of a)) ≡ₚ list_ascii_of_string a ∧
  (sorted (word_of a) = sorted (word_of b) ↔
   list_ascii_of_string a ≡ₚ list_ascii_of_string b).
Proof.
  cbn [sorted word_of]. rewrite !list_ascii_sort_chars.
  split; [apply StronglySorted_merge_sort; apply _|].
  split; [apply merge_sort_Permutation|]. split.
  - intros Heq. apply (f_equal list_ascii_of_string) in Heq.
    rewrite !list_ascii_sort_chars in Heq.
    rewrite <-(merge_sort_Permutation char_le (list_ascii_of_string a)), Heq.
    apply merge_sort_Permutation.
  - apply sort_chars_Permutation.
Qed.

(** X2: the answer of [is_one_less_than] depends on the letters only: not
    on the order of the candidates, nor on the order of the letters in
    the source or in a candidate. *)
Theorem is_one_less_than_letters source source' candidates candidates' :
  list_ascii_of_string source ≡ₚ list_ascii_of_string source' ->
  list_ascii_of_string (join candidates)
    ≡ₚ list_ascii_of_string (join candidates') ->
  is_one_less_than (word_of source) candidates
  = is_one_less_than (word_of source') candidates'.
Proof.
  intros Hsource Hcandidates. unfold is_one_less_than. cbn [sorted word_of].
  rewrite (sort_chars_Permutation _ _ Hsource),
    (sort_chars_Permutation _ _ Hcandidates).
  assert (string_size (join candidates) = string_size (join candidates')) as ->.
  { unfold string_size. by rewrite <-!length_list_ascii_of_string, Hcandidates. }
  done.
Qed.

Lemma is_one_less_than_letters_witness :
  is_one_less_than (word_of "cat") ["ct"; "as"]
  = is_one_less_than (word_of "act") ["as"; "ct"].
Proof.
  apply is_one_less_than_letters.
  - apply (perm_swap "a"%char "c"%char ["t"%char]).
  - apply (join_Permutation ["ct"; "as"] ["as"; "ct"]), perm_swap.
Defined.

(** What the walk of [is_one_less_than] lets through: with [j - i]
    mismatches behind it, it ends well only if the candidates' letters
    left are the source's letters left, but for at most the last of
    them, and as many more letters as the budget allows. *)
Lemma differ_walk_sound s o i j :
  differ_walk s o i j = true -> 0 <= j - i <= 2 ->
  Z.of_nat (length o) + (j - i) = Z.of_nat (length s) + 1 ->
  ∃ kept dropped added,
    s = (kept ++ dropped)%list ∧ (length dropped <= 1)%nat ∧
    o ≡ₚ (added ++ kept)%list ∧
    Z.of_nat (length added) + (j - i) = 1 + Z.of_nat (length dropped).
Proof.
  revert s i j. induction o as [|oj o IH]; intros s i j Hwalk Hbudget Hlen.
  { cbn [length] in Hlen. destruct s as [|z [|z' s]]; cbn [length] in Hlen.
    - exists [], [], []. cbn. split_and4; [done|lia|done|lia].
    - exists [], [z], []. cbn. split_and4; [done|lia|done|lia].
    - lia. }
  destruct s as [|si s].
  { cbn [length] in Hlen. exists [], [], (oj :: o). cbn [length app].
    split_and4; [done|lia|by rewrite app_nil_r|lia]. }
  rewrite differ_walk_step in Hwalk. cbn [length] in Hlen.
  destruct (Ascii.eqb_spec si oj) as [->|Hne].
  - destruct (IH s (i + 1) (j + 1) Hwalk) as (kept & dropped & added & -> & ? & Ho & ?);
      [lia..|].
    exists (oj :: kept), dropped, added.
    split_and4; [done|done| |lia].
    rewrite Ho. apply Permutation_middle.
  - destruct (Z.ltb_spec 1 (j - i)); [done|].
    destruct (IH (si :: s) i (j + 1) Hwalk) as (kept & dropped & added & -> & ? & Ho & ?);
      [cbn [length]; lia..|].
    exists kept, dropped, (oj :: added).
    split_and4; [done|done|by rewrite Ho|cbn [length]; lia].
Qed.

(** X4: what an accepted answer guarantees: the candidates have one letter
    more than the source, and hold every letter of the source, but for
    at most one occurrence of its greatest letter, which two other
    letters then stand for. *)
Theorem is_one_less_than_sound source candidates :
  string_size source < 2 ^ 63 -> string_size (join candidates) < 2 ^ 63 ->
  is_one_less_than (word_of source) candidates = true ->
  string_size (join candidates) = string_size source + 1 ∧
  ∃ kept dropped added,
    list_ascii_of_string (sorted (word_of source)) = (kept ++ dropped)%list ∧
    (length dropped <= 1)%nat ∧
    list_ascii_of_string (join candidates) ≡ₚ (added ++ kept)%list ∧
    length added = S (length dropped).
Proof.
  intros Hsource Hjoin Haccepted.
  assert (string_size (join candidates) = string_size source + 1) as Hsize.
  { rewrite string_size_join in *. by apply anagram_total_size. }
  split; [done|]. revert Haccepted. unfold is_one_less_than.
  destruct (negb _); [done|]. intros Hwalk.
  apply differ_walk_sound in Hwalk as (kept & dropped & added & Hs & ? & Ho & ?).
  - exists kept, dropped, added. split_and4; [done|done| |lia].
    by rewrite <-Ho, list_ascii_sort_chars, merge_sort_Permutation.
  - lia.
  - rewrite !length_list_ascii_of_string. cbn [sorted word_of].
    pose proof (string_size_sort_chars (join candidates)) as H1.
    pose proof (string_size_sort_chars source) as H2.
    unfold string_size in *. lia.
Qed.

Lemma is_one_less_than_sound_witness :
  string_size (join ["rays"]) = string_size "rat" + 1 ∧
  ∃ kept dropped added,
    list_ascii_of_string (sorted (word_of "rat")) = (kept ++ dropped)%list ∧
    (length dropped <= 1)%nat ∧
    list_ascii_of_string (join ["rays"]) ≡ₚ (added ++ kept)%list ∧
    length added = S (length dropped).
Proof.
  apply (is_one_less_than_sound "rat" ["rays"]); by vm_compute.
Defined.

Lemma is_one_less_than_complete_witness :
  is_one_less_than (word_of "cat") ["ct"; "as"] = true.
Proof.
  apply is_one_less_than_complete. exists "s"%char.
  change (list_ascii_of_string (join ["ct"; "as"]))
    with ["c"; "t"; "a"; "s"]%char.
  change (list_ascii_of_string "cat") with ["c"; "a"; "t"]%char.
  symmetry. etrans; [|apply (Permutation_middle ["c"; "t"; "a"] [] "s")%char].
  apply perm_skip, perm_skip, perm_swap.
Defined.

Lemma string_ltb_compare a b :
  String.ltb a b = true ↔ String.compare a b = Lt.
Proof. unfold String.ltb. by destruct (String.compare a b). Qed.

Lemma string_compare_refl a : String.compare a a = Eq.
Proof.
  induction a as [|c a IH]; [done|]. cbn [String.compare].
  unfold Ascii.compare. by rewrite N.compare_refl.
Qed.

Lemma string_ltb_le a b : String.ltb a b = true ↔ String.le a b ∧ a ≠ b.
Proof.
  rewrite string_ltb_compare. unfold String.le, String.leb.
  destruct (String.compare a b) eqn:Hcmp.
  - apply String.compare_eq_iff in Hcmp. naive_solver.
  - split; [|done]. intros _. split; [done|]. intros ->.
    pose proof (string_compare_refl b). congruence.
  - naive_solver.
Qed.

(** X5: [word::operator<] is a strict total order on the literals: it is
    irreflexive and transitive, and two words that it does not order
    have the same literal, whatever their sorted letters; so a pool
    holds a literal at most once. *)
Theorem word_lt_strict_total (a b c : word) :
  word_lt a a = false ∧
  (word_lt a b = true -> word_lt b c = true -> word_lt a c = true) ∧
  (word_lt a b = true -> word_lt b a = false) ∧
  (word_lt a b = false -> word_lt b a = false -> literal a = literal b).
Proof.
  unfold word_lt. split_and4.
  - apply not_true_is_false. rewrite string_ltb_le. naive_solver.
  - rewrite !string_ltb_le. intros [Hab Hne] [Hbc Hne']. split.
    + by etrans.
    + intros Heq. rewrite <-Heq in Hbc. apply Hne. by apply (anti_symm String.le).
  - intros [Hab Hne]%string_ltb_le. apply not_true_is_false.
    intros [Hba _]%string_ltb_le. apply Hne. by apply (anti_symm String.le).
  - intros Hab Hba. apply dec_stable. intros Hne.
    destruct (total String.le (literal a) (literal b)).
    + apply not_true_iff_false in Hab. apply Hab, string_ltb_le. done.
    + apply not_true_iff_false in Hba. apply Hba, string_ltb_le. done.
Qed.

(** ** Lower case *)

Lemma tolower_islower c : isalpha (tolower c) = true -> islower (tolower c) = true.
Proof. destruct c as [[] [] [] [] [] [] [] []]; by vm_compute. Qed.

Lemma tolower_idemp c : tolower (tolower c) = tolower c.
Proof. destruct c as [[] [] [] [] [] [] [] []]; by vm_compute. Qed.

Lemma tolower_lower c : islower c = true -> tolower c = c.
Proof. destruct c as [[] [] [] [] [] [] [] []]; by vm_compute. Qed.

Lemma to_lower_idemp s : to_lower (to_lower s) = to_lower s.
Proof.
  induction s as [|c s IH]; [done|].
  cbn [to_lower]. by rewrite tolower_idemp, IH.
Qed.

(** X6: [lowercase_and_validate] keeps the length of its argument; running
    it again on the lowered string changes nothing; when it answers
    true the lowered string holds the letters [a] to [z] only; a string
    of such letters is left as it is and accepted; and the empty string
    is accepted. *)
Theorem lowercase_and_validate_lower (str : string) :
  String.length (lowercase_and_validate str).1 = String.length str ∧
  lowercase_and_validate (lowercase_and_validate str).1
    = lowercase_and_validate str ∧
  ((lowercase_and_validate str).2 = true ->
   all_of islower (lowercase_and_validate str).1 = true) ∧
  (all_of islower str = true -> lowercase_and_validate str = (str, true)) ∧
  lowercase_and_validate EmptyString = (EmptyString, true).
Proof.
  unfold lowercase_and_validate. cbn [fst snd]. split; [apply length_to_lower|].
  split; [by rewrite to_lower_idemp|]. split; [|split; [|done]].
  - induction str as [|c str IH]; [done|]. cbn [to_lower all_of].
    intros [Hc Hstr]%andb_true_iff. by rewrite tolower_islower, IH.
  - intros Hlower. assert (to_lower str = str) as ->.
    { induction str as [|c str IH]; [done|]. cbn [to_lower all_of] in *.
      apply andb_true_iff in Hlower as [Hc Hstr]. by rewrite tolower_lower, IH. }
    f_equal. induction str as [|c str IH]; [done|]. cbn [all_of] in *.
    apply andb_true_iff in Hlower as [Hc Hstr]. rewrite IH by done.
    unfold isalpha. by rewrite Hc, orb_true_r.
Qed.

(** ** More on the stems of a word *)

Section Stems_of_words.

Variable dict : oracle.

Lemma morph_loop_spec literal_arr cats stems should_hunspell log stems' flag x :
  morph_loop dict literal_arr cats stems should_hunspell = (log, Ok (stems', flag)) ->
  (x ∈ stems' ↔
   x ∈ stems ∨ ∃ i, i ∈ cats ∧ morphword dict literal_arr i = Some x) ∧
  (flag = true ↔
   should_hunspell = true ∨
   ∃ i, i ∈ cats ∧ morphword dict literal_arr i = None ∧
        in_wn dict literal_arr i = true) ∧
  Forall (fun q => q ≠ Q_spell literal_arr ∧ is_Q_stem q = false) log.
Proof.
  revert stems should_hunspell log.
  induction cats as [|i cats IH]; intros stems should_hunspell log.
  { intros [= <- <- <-]. split; [|split; [|done]].
    - split; [tauto|]. intros [?|(i & []%elem_of_nil & _)]. done.
    - split; [tauto|]. intros [?|(i & []%elem_of_nil & _)]. done. }
  cbn [morph_loop]. unfold ask_morphword, ask_in_wn, bind.
  destruct (morphword dict literal_arr i) as [base|] eqn:Hmorph.
  - destruct (morph_loop dict literal_arr cats ({[base]} ∪ stems) should_hunspell)
      as [log' r] eqn:Hloop.
    intros [= <- ->]. destruct (IH _ _ _ Hloop) as (Hstems & Hflag & Hlog).
    split; [|split].
    + rewrite Hstems, elem_of_union, elem_of_singleton. split.
      * intros [[->|?]|(i' & ? & ?)]; [right; exists i|tauto|right; exists i'];
          set_solver.
      * intros [?|(i' & [->|?]%elem_of_cons & ?)]; [tauto|left; left; congruence|].
        right. by exists i'.
    + rewrite Hflag. split.
      * intros [?|(i' & ? & ? & ?)]; [tauto|]. right. exists i'. set_solver.
      * intros [?|(i' & [->|?]%elem_of_cons & ? & ?)]; [tauto|congruence|].
        right. by exists i'.
    + by constructor.
  - destruct (morph_loop dict literal_arr cats stems
                (if in_wn dict literal_arr i then true else should_hunspell))
      as [log' r] eqn:Hloop.
    intros [= <- ->]. destruct (IH _ _ _ Hloop) as (Hstems & Hflag & Hlog).
    split; [|split].
    + rewrite Hstems. split.
      * intros [?|(i' & ? & ?)]; [tauto|]. right. exists i'. set_solver.
      * intros [?|(i' & [->|?]%elem_of_cons & ?)]; [tauto|congruence|].
        right. by exists i'.
    + rewrite Hflag. destruct (in_wn dict literal_arr i) eqn:Hwn; split.
      * intros _. right. exists i. set_solver.
      * intros _. by left.
      * intros [?|(i' & ? & ? & ?)]; [tauto|]. right. exists i'. set_solver.
      * intros [?|(i' & [->|?]%elem_of_cons & ? & ?)]; [tauto|congruence|].
        right. by exists i'.
    + by repeat constructor.
Qed.

(** X7: the stems of a recognized word: the base forms that [morphword]
    finds in one of the four categories and, if in some category
    [morphword] finds none while [in_wn] knows the word, the stems at
    the even places of the list of [Hunspell::stem], which is asked for
    exactly once in that case and not at all otherwise.  The dictionary
    is asked to spell the string as it was given; WordNet and the
    stemmer see it lowered. *)
Theorem stems_from_str_recognized (str : string) :
  string_size str < 128 ->
  all_of isalpha (to_lower str) = true ->
  spell dict str = true ->
  ∃ log stems,
    stems_from_str dict str = (Q_spell str :: log, Ok stems) ∧
    (∀ x,
       x ∈ stems ↔
       (∃ i, morphword dict (to_lower str) i = Some x) ∨
       ((∃ i, morphword dict (to_lower str) i = None ∧
              in_wn dict (to_lower str) i = true) ∧
        ∃ k : nat, stem dict (to_lower str) !! (2 * k)%nat = Some x)) ∧
    ((∃ i, morphword dict (to_lower str) i = None ∧
           in_wn dict (to_lower str) i = true) ->
     List.filter is_Q_stem log = [Q_stem (to_lower str)]) ∧
    (¬ (∃ i, morphword dict (to_lower str) i = None ∧
             in_wn dict (to_lower str) i = true) ->
     List.filter is_Q_stem log = []).
Proof.
  intros Hsize Halpha Hspell. unfold stems_from_str.
  destruct (Z.leb_spec 128 (string_size str)); [lia|].
  unfold lowercase_and_validate. rewrite Halpha. cbn [negb].
  unfold ask_spell, bind at 1. rewrite Hspell. cbn [negb].
  destruct (morph_loop dict (to_lower str) [NOUN; VERB; ADJ; ADV] ∅ false)
    as [log [[stems flag]|what]] eqn:Hloop.
  2: { destruct (morph_loop_ok dict (to_lower str) [NOUN; VERB; ADJ; ADV] ∅ false)
         as (? & ? & ?). congruence. }
  assert (∀ i : pos, i ∈ [NOUN; VERB; ADJ; ADV]) as Hall.
  { intros []; set_solver. }
  assert (∀ x, (x ∈ stems ↔ ∃ i, morphword dict (to_lower str) i = Some x)) as Hstems.
  { intros x. destruct (morph_loop_spec _ _ _ _ _ _ _ x Hloop) as (-> & _ & _).
    split; [intros [[]%elem_of_empty|(i & _ & ?)]; by exists i|].
    intros [i ?]. right. exists i. split; [apply Hall|done]. }
  assert (flag = true ↔ ∃ i, morphword dict (to_lower str) i = None ∧
                             in_wn dict (to_lower str) i = true) as Hflag.
  { destruct (morph_loop_spec _ _ _ _ _ _ _ EmptyString Hloop) as (_ & -> & _).
    split; [intros [[=]|(i & _ & ?)]; by exists i|].
    intros [i ?]. right. exists i. split; [apply Hall|done]. }
  assert (List.filter is_Q_stem log = []) as Hlog.
  { destruct (morph_loop_spec _ _ _ _ _ _ _ EmptyString Hloop) as (_ & _ & Hlog).
    clear -Hlog. induction Hlog as [|q log [_ Hq] _ IH]; [done|].
    cbn [List.filter]. by rewrite Hq. }
  unfold bind. cbn [fst snd]. destruct flag.
  - unfold ask_stem, ret. cbn [app].
    eexists _, _. split; [done|]. split; [|split].
    + intros x. rewrite elem_of_emplace_loop, Hstems. rewrite <-Hflag. tauto.
    + intros _. by rewrite !List.filter_app, Hlog.
    + intros Hnone. destruct Hnone. by apply Hflag.
  - unfold ret. eexists _, _. split; [done|]. split; [|split].
    + intros x. rewrite Hstems, <-Hflag. naive_solver.
    + intros Hsome%Hflag. done.
    + intros _. by rewrite app_nil_r.
Qed.

End Stems_of_words.

Lemma stems_from_str_recognized_witness :
  ∃ log stems,
    stems_from_str demo "bass" = (Q_spell "bass" :: log, Ok stems) ∧
    (∀ x,
       x ∈ stems ↔
       (∃ i, morphword demo (to_lower "bass") i = Some x) ∨
       ((∃ i, morphword demo (to_lower "bass") i = None ∧
              in_wn demo (to_lower "bass") i = true) ∧
        ∃ k : nat, stem demo (to_lower "bass") !! (2 * k)%nat = Some x)) ∧
    ((∃ i, morphword demo (to_lower "bass") i = None ∧
           in_wn demo (to_lower "bass") i = true) ->
     List.filter is_Q_stem log = [Q_stem (to_lower "bass")]) ∧
    (¬ (∃ i, morphword demo (to_lower "bass") i = None ∧
             in_wn demo (to_lower "bass") i = true) ->
     List.filter is_Q_stem log = []).
Proof. apply (stems_from_str_recognized demo "bass"); by vm_compute. Defined.

(** ** The tokens of a line *)

Lemma strsep_cons c line :
  strsep (String c line)
  = if Ascii.eqb c " " then (EmptyString, (strsep line).1 :: (strsep line).2)
    else (String c (strsep line).1, (strsep line).2).
Proof. cbn [strsep]. by destruct (strsep line). Qed.

Lemma concat_cons_String sep c token tokens :
  String.concat sep (String c token :: tokens)
  = String c (String.concat sep (token :: tokens)).
Proof. by destruct tokens. Qed.

Lemma concat_cons_empty c tokens token :
  String.concat (String c EmptyString) (EmptyString :: token :: tokens)
  = String c (String.concat (String c EmptyString) (token :: tokens)).
Proof. done. Qed.

(** X8: the tokens that [strsep] cuts a line into hold no space, and joined
    again with single spaces they give the line back: every space of
    the line separates two tokens, so that two spaces in a row, or a
    space at either end, yield an empty token. *)
Theorem strsep_tokens (line : string) :
  String.concat " " ((strsep line).1 :: (strsep line).2) = line ∧
  Forall (fun token => all_of (fun c => negb (Ascii.eqb c " ")) token = true)
         ((strsep line).1 :: (strsep line).2) ∧
  length (strsep line).2
  = length (List.filter (fun c => Ascii.eqb c " ") (list_ascii_of_string line)).
Proof.
  induction line as [|c line (IHjoin & IHspace & IHcount)]; [by repeat constructor|].
  rewrite strsep_cons. cbn [list_ascii_of_string List.filter].
  apply Forall_cons in IHspace as [Hhead Htail].
  destruct (Ascii.eqb_spec c " ") as [->|Hc]; cbn [fst snd].
  - split; [|split].
    + by rewrite concat_cons_empty, IHjoin.
    + by repeat constructor.
    + cbn [length]. by rewrite IHcount.
  - split; [|split; [|done]].
    + by rewrite concat_cons_String, IHjoin.
    + constructor; [|done]. cbn [all_of].
      rewrite Hhead, andb_true_r. by apply negb_true_iff, Ascii.eqb_neq.
Qed.

Lemma read_candidates_to_lower tokens candidates :
  read_candidates (to_lower <$> tokens) candidates
  = read_candidates tokens candidates.
Proof.
  revert candidates. induction tokens as [|token tokens IH]; intros candidates;
    [done|].
  rewrite fmap_cons. cbn [read_candidates lowercase_and_validate].
  rewrite to_lower_idemp. by destruct (_ || _).
Qed.

(** ** More on the rounds of [play] *)

Section Rounds.

Variable dict : oracle.

(** X9: the candidates of a turn are read without regard to case: a line
    and the line with its candidates lowered are played alike.  (The
    chosen word is compared as it was typed.) *)
Theorem play_round_candidates_case st line line' chosen start :
  strsep line = (chosen, start) ->
  strsep line' = (chosen, to_lower <$> start) ->
  start ≠ [] ->
  play_round dict st line = play_round dict st line'.
Proof.
  intros Hsep Hsep' Hstart. unfold play_round.
  destruct start as [|token start]; [done|]. rewrite fmap_cons in Hsep'.
  rewrite !(strsep_not_command _ _ _ _ _ Hsep) by done.
  rewrite !(strsep_not_command _ _ _ _ _ Hsep') by done.
  rewrite Hsep, Hsep'. rewrite <-fmap_cons, read_candidates_to_lower. done.
Qed.

(** X10: a candidate of 128 letters or more that is the first to reach the
    stems makes the round throw: nothing in [play] catches the error of
    [stems_from_str], and the game ends there. *)
Theorem play_round_throws st line chosen start c candidates :
  strsep line = (chosen, start) ->
  chosen ∈ current st ->
  read_candidates start [] = inr (c :: candidates) ->
  is_one_less_than (word_of chosen) (c :: candidates) = true ->
  128 <= string_size c ->
  play_round dict st line = ([], Throw "Input length exceeded.").
Proof.
  intros Hsep Hchosen Hread Hanagram Hsize. unfold play_round.
  destruct start as [|token start]; [done|].
  rewrite !(strsep_not_command _ _ _ _ _ Hsep) by done. cbn [orb].
  rewrite Hsep, bool_decide_eq_false_2 by (by intros []).
  rewrite Hread, Hanagram. cbn [negb candidates_loop].
  by rewrite (stems_from_str_throw _ _ Hsize).
Qed.

(** X11: in a state that the game reaches, a round throws for no other
    cause: as long as the words of [current] have fewer than 127
    letters, every line is answered. *)
Theorem play_round_answers st line :
  reachable dict st -> fits_input line ->
  (∀ w, w ∈ current st -> string_size w < 127) ->
  ∃ log o st', play_round dict st line = (log, Ok (o, st')).
Proof.
  intros Hinv%reachable_inv Hfits Hshort. unfold play_round.
  destruct (_ || _ || _ || _); [by eexists _, _, _|].
  destruct (String.eqb (to_lower line) "q"); [by eexists _, _, _|].
  destruct (_ || _); [by eexists _, _, _|].
  destruct (strsep line) as [chosen start] eqn:Hsep.
  destruct (bool_decide (chosen ∉ current st)) eqn:Hchosen; [by eexists _, _, _|].
  apply bool_decide_eq_false in Hchosen. apply dec_stable in Hchosen.
  destruct start as [|token start]; [by eexists _, _, _|].
  destruct (read_candidates (token :: start) []) as [shown|candidates] eqn:Hread;
    [by eexists _, _, _|].
  destruct (is_one_less_than (word_of chosen) candidates) eqn:Hanagram;
    cbn [negb]; [|by eexists _, _, _].
  assert (Forall (fun c => string_size c < 128) candidates) as Hsizes.
  { pose proof (strsep_size _ _ _ Hsep) as Hline.
    pose proof (string_size_nonneg chosen).
    pose proof (total_size_nonneg (token :: start)).
    pose proof (Hshort chosen Hchosen).
    apply read_candidates_inr in Hread as [-> _]. rewrite app_nil_l in *.
    unfold fits_input in Hfits.
    pose proof (anagram_total_size _ _ Hanagram) as Htotal.
    rewrite total_size_to_lower in Htotal.
    apply Forall_forall. intros c Hc%total_size_elem_of.
    rewrite total_size_to_lower in Hc. lia. }
  destruct (candidates_loop_ok dict (used_stems st) candidates
              {| entry_invalid := false; shown_err := None;
                 score_this_round := 0; stems_this_round := ∅ |} Hsizes)
    as (log & r & Hloop).
  erewrite bind_ok by done. unfold queries, result, ret.
  destruct (entry_invalid r); cbn; by eexists _, _, _.
Qed.

End Rounds.

Lemma play_round_candidates_case_witness :
  play_round demo demo_cat "cat ACTS" = play_round demo demo_cat "cat acts".
Proof.
  apply (play_round_candidates_case demo demo_cat _ _ "cat" ["ACTS"]);
    [reflexivity|reflexivity|discriminate].
Defined.

Lemma play_round_throws_witness :
  play_round demo
    {| score := 0; used_stems := ∅; current := {[letters 127]}; prior := ∅ |}
    (letters 127 ++ " " ++ letters 128)
  = ([], Throw "Input length exceeded.").
Proof.
  apply (play_round_throws demo _ _ (letters 127) [letters 128]
           (letters 128) []).
  - by vm_compute.
  - cbn [current]. set_solver.
  - by vm_compute.
  - by vm_compute.
  - by vm_compute.
Defined.

Lemma play_round_answers_witness :
  ∃ log o st', play_round demo demo_cat "cat acts" = (log, Ok (o, st')).
Proof.
  apply (play_round_answers demo demo_cat "cat acts").
  - apply demo_cat_reachable.
  - by vm_compute.
  - intros w Hw. assert (w = "cat") as -> by (revert Hw; demo_pools).
    by vm_compute.
Defined.

(** ** The books of the game *)

Lemma gain_app l1 l2 : gain (l1 ++ l2) = gain l1 + gain l2.
Proof.
  induction l1 as [|w l1 IH]; [done|].
  rewrite <-app_comm_cons, !gain_cons, IH. lia.
Qed.

Lemma gain_elements_disj_union (X Y : gset string) :
  X ## Y -> gain (elements (X ∪ Y)) = gain (elements X) + gain (elements Y).
Proof.
  intros Hdisj. rewrite (gain_Permutation _ _ (elements_disj_union X Y Hdisj)).
  apply gain_app.
Qed.

Lemma gain_elements_list_to_set (l : list string) :
  NoDup l -> gain (elements (list_to_set l : gset string)) = gain l.
Proof. intros Hl. apply gain_Permutation. by apply elements_list_to_set. Qed.

Section Books.

Variable dict : oracle.

Lemma all_pass_NoDup used candidates :
  all_pass dict used candidates -> NoDup candidates.
Proof.
  revert used. induction candidates as [|c candidates IH]; intros used;
    [constructor|].
  cbn [all_pass]. intros (Hne & Hfresh & Hpass). constructor; [|by eapply IH].
  intros Hc. destruct (all_pass_stems _ _ _ _ Hpass Hc) as [_ Hdisj].
  apply Hne. set_solver.
Qed.

Lemma elem_of_claimed candidates x :
  x ∈ claimed dict candidates ↔ ∃ c, c ∈ candidates ∧ x ∈ stems_of dict c.
Proof.
  induction candidates as [|c candidates IH].
  - change (claimed dict []) with (∅ : gset string). set_solver.
  - rewrite claimed_cons, elem_of_union, IH. set_solver.
Qed.

Lemma seed_shape w log st :
  seed dict new_game w = (log, Ok st) ->
  st = {| score := 0; used_stems := stems_of dict w; current := {[w]};
          prior := ∅ |}.
Proof.
  unfold seed.
  intros (log1 & stems & log2 & Hstems & [= _ <-] & _)%bind_inv_ok.
  apply stems_of_ok in Hstems. cbn [score used_stems current prior new_game].
  by rewrite Hstems, !(right_id_L ∅ (∪)).
Qed.

Lemma started_seeded st :
  started dict st ->
  ∃ w, String.length w = 3%nat ∧
       st = {| score := 0; used_stems := stems_of dict w; current := {[w]};
               prior := ∅ |}.
Proof.
  intros [input_arr choice log st' Hchoice Hsetup Hcurrent].
  revert Hsetup. unfold setup_round, lowercase_and_validate.
  destruct (all_of isalpha (to_lower input_arr));
    [|intros [= _ <-]; by destruct Hcurrent].
  destruct (Z.eqb_spec (string_size (to_lower input_arr)) 3) as [Hsize|_].
  - unfold ask_spell, bind. destruct (spell dict (to_lower input_arr)).
    + destruct (seed dict new_game (to_lower input_arr)) as [log2 res] eqn:Hseed.
      intros [= _ ->]. exists (to_lower input_arr).
      split; [unfold string_size in Hsize; lia|by eapply seed_shape].
    + destruct (_ || _).
      * destruct (seed dict new_game choice) as [log2 res] eqn:Hseed.
        intros [= _ ->]. exists choice. split; [done|by eapply seed_shape].
      * intros [= _ <-]. by destruct Hcurrent.
  - unfold ret, bind. destruct (_ || _).
    + destruct (seed dict new_game choice) as [log2 res] eqn:Hseed.
      intros [= _ ->]. exists choice. split; [done|by eapply seed_shape].
    + intros [= _ <-]. by destruct Hcurrent.
Qed.


Lemma reachable_books st :
  reachable dict st ->
  score st = gain (elements (current st ∪ prior st)) ∧
  (∀ x, x ∈ used_stems st ↔
        ∃ w, w ∈ current st ∪ prior st ∧ x ∈ stems_of dict w) ∧
  current st ≠ ∅.
Proof.
  induction 1 as [st Hstart|st st' Hreach (IHscore & IHstems & IHcurrent)
                             (line & log & o & Hfits & Hplay & Ho)].
  - apply started_seeded in Hstart as (w & Hw & ->).
    cbn [score used_stems current prior]. rewrite (right_id_L ∅ (∪)).
    split; [|split].
    + rewrite elements_singleton, gain_cons. change (gain []) with 0.
      unfold string_size. lia.
    + intros x. split; [intros ?; exists w; set_solver|].
      intros (w' & ->%elem_of_singleton & ?). done.
    + apply (non_empty_singleton_L (A := string) (C := gset string)).
  - destruct o; try done;
      try (by apply play_round_inv in Hplay as ->).
    pose proof (reachable_inv _ _ Hreach) as Hinv.
    destruct (play_round_inv_Committed _ _ _ _ _ Hfits Hplay)
      as (chosen & start & candidates & Hsep & Hchosen & Hread & Hne & _ &
          Hpass & Hsizes & ->).
    pose proof (fun c => passing_candidate_fresh _ _ _ c Hinv Hpass) as Hfresh.
    pose proof (all_pass_NoDup _ _ Hpass) as Hnodup.
    cbn [score used_stems current prior].
    assert (list_to_set candidates ∪ current st ∖ {[chosen]}
              ∪ ({[chosen]} ∪ prior st)
            = list_to_set candidates ∪ (current st ∪ prior st)) as Hpools.
    { apply set_eq. intros w. destruct (decide (w = chosen)); set_solver. }
    rewrite Hpools. split; [|split].
    + rewrite gain_elements_disj_union, gain_elements_list_to_set by set_solver.
      lia.
    + intros x. rewrite elem_of_union, elem_of_claimed, IHstems. set_solver.
    + destruct candidates as [|c candidates]; [done|]. set_solver.
Qed.

(** X13: the score is the sum of [len(word) - 3] over the words of the two
    pools: every word that was ever played counts once, whether it is
    still in [current] or not. *)
Theorem score_is_gain_of_pools st :
  reachable dict st -> score st = gain (elements (current st ∪ prior st)).
Proof. intros H. apply (reachable_books _ H). Qed.

(** X14: the used stems are the stems of the words of the two pools, and no
    others. *)
Theorem used_stems_are_pool_stems st x :
  reachable dict st ->
  (x ∈ used_stems st ↔ ∃ w, w ∈ current st ∪ prior st ∧ x ∈ stems_of dict w).
Proof. intros H. apply (reachable_books _ H). Qed.

(** X15: the words of the pools have three letters at least and 127 at most,
    and [current] is never empty: there is always a word to play. *)
Theorem pools_well_formed st :
  reachable dict st ->
  current st ≠ ∅ ∧
  ∀ w, w ∈ current st ∪ prior st -> 3 <= string_size w <= 127.
Proof.
  intros H. split; [apply (reachable_books _ H)|].
  intros w Hw. pose proof (inv_size _ _ (reachable_inv _ _ H) w Hw). lia.
Qed.

(** X16: nothing is ever forgotten: along the rounds of the game the used
    stems and the words of the two pools only grow. *)
Theorem rounds_only_add st st' :
  rtc (step dict) st st' ->
  used_stems st ⊆ used_stems st' ∧
  current st ∪ prior st ⊆ current st' ∪ prior st'.
Proof.
  induction 1 as [st|st1 st2 st3 (line & log & o & _ & Hplay & Ho) _ IH];
    [done|].
  assert (used_stems st1 ⊆ used_stems st2 ∧
          current st1 ∪ prior st1 ⊆ current st2 ∪ prior st2) as [Hused Hpools].
  { pose proof (play_round_inv _ _ _ _ _ _ Hplay) as Hcase.
    destruct o; cbn beta iota in Hcase; try (by subst).
    destruct Hcase as (chosen & ? & candidates & r & _ & Hchosen & _ & _ & _ &
                       _ & _ & ->).
    cbn [used_stems current prior]. split; [set_solver|].
    intros w. destruct (decide (w = chosen)); set_solver. }
  destruct IH. split; by etrans.
Qed.

Lemma quit_round st :
  inv dict st ->
  play_round dict st "q"
  = ([], Ok (Quit, {| score := score st + gain (elements (current st));
                      used_stems := used_stems st; current := current st;
                      prior := prior st |})).
Proof.
  intros Hinv.
  assert (Forall (fun w => 3 <= string_size w < 128) (set_order (current st)))
    as Hsizes.
  { apply Forall_forall. intros w Hw%elem_of_set_order.
    apply (inv_size _ _ Hinv). set_solver. }
  unfold play_round.
  change (String.eqb (to_lower "q") ",") with false.
  change (String.eqb (to_lower "q") ".") with false.
  change (String.eqb (to_lower "q") "<") with false.
  change (String.eqb (to_lower "q") ">") with false.
  change (String.eqb (to_lower "q") "q") with true.
  cbn [orb]. unfold ret. rewrite (bonus_loop_gain _ _ Hsizes).
  by rewrite (gain_Permutation (set_order (current st)) (elements (current st)))
    by apply merge_sort_Permutation.
Qed.

(** X17: the final score: at the quit command the words of [prior] have
    counted once and those still in [current] count twice. *)
Theorem final_score st :
  reachable dict st ->
  ∃ st',
    play_round dict st "q" = ([], Ok (Quit, st')) ∧
    score st' = gain (elements (prior st)) + 2 * gain (elements (current st)).
Proof.
  intros Hreach. pose proof (reachable_inv _ _ Hreach) as Hinv.
  eexists. split; [by apply quit_round|]. cbn [score].
  destruct (reachable_books _ Hreach) as (-> & _ & _).
  rewrite gain_elements_disj_union; [lia|]. apply (inv_disjoint _ _ Hinv).
Qed.

End Books.


Lemma score_is_gain_of_pools_witness :
  score demo_acts = gain (elements (current demo_acts ∪ prior demo_acts)).
Proof. apply (score_is_gain_of_pools demo), demo_acts_reachable. Defined.

Lemma used_stems_are_pool_stems_witness :
  "act" ∈ used_stems demo_acts ↔
  ∃ w, w ∈ current demo_acts ∪ prior demo_acts ∧ "act" ∈ stems_of demo w.
Proof. apply (used_stems_are_pool_stems demo), demo_acts_reachable. Defined.

Lemma pools_well_formed_witness :
  current demo_acts ≠ ∅ ∧
  ∀ w, w ∈ current demo_acts ∪ prior demo_acts -> 3 <= string_size w <= 127.
Proof. apply (pools_well_formed demo), demo_acts_reachable. Defined.

Lemma rounds_only_add_witness :
  used_stems demo_cat ⊆ used_stems demo_acts ∧
  current demo_cat ∪ prior demo_cat ⊆ current demo_acts ∪ prior demo_acts.
Proof.
  apply (rounds_only_add demo). apply rtc_once.
  exists "cat acts", (queries (play_round demo demo_cat "cat acts")), Committed.
  split; [by vm_compute|]. split; [apply demo_cat_acts|discriminate].
Defined.

Lemma final_score_witness :
  ∃ st',
    play_round demo demo_acts "q" = ([], Ok (Quit, st')) ∧
    score st' = gain (elements (prior demo_acts))
                + 2 * gain (elements (current demo_acts)).
Proof. apply (final_score demo), demo_acts_reachable. Defined.

(** ** The pages *)

Section Pages.

Variable max_cols : Z.
Variable size : nat.


Lemma set_back_ok to row_index row :
  to ≠ [] -> Forall (fun page => length page = size) to ->
  set_back to row_index row ≠ [] ∧
  Forall (fun page => length page = size) (set_back to row_index row).
Proof.
  intros Hne Hall. unfold set_back. split.
  - intros Hnil%(f_equal length). rewrite length_alter in Hnil.
    by destruct to.
  - apply Forall_alter; [done|]. intros page _ <-. apply length_insert.
Qed.

Lemma store_row_ok p :
  (0 < size)%nat -> Z.of_nat size < 2 ^ 31 ->
  pager_ok size p -> pager_ok size (store_row size p) ∧ 1 <= row_index (store_row size p).
Proof.
  intros Hpos Hsize (Hne & Hall & Hindex). unfold store_row, pager_ok.
  assert (wrap_size_t (row_index p) = row_index p) as ->.
  { unfold wrap_size_t. apply Z.mod_small. lia. }
  destruct (Z.eqb_spec (row_index p) (Z.of_nat size)) as [Heq|Hne'];
    cbn [to row_index row].
  - destruct (set_back_ok (emplace_back size (to p)) 0 (row p)) as [? ?].
    + unfold emplace_back. by destruct (to p).
    + unfold emplace_back. apply Forall_app. split; [done|].
      repeat constructor. apply length_replicate.
    + assert (wrap_int (0 + 1) = 1) as -> by done. repeat split; [done..|lia|lia|lia].
  - destruct (set_back_ok (to p) (row_index p) (row p)) as [? ?]; [done..|].
    assert (wrap_int (row_index p + 1) = row_index p + 1) as ->.
    { unfold wrap_int. rewrite Z.mod_small; lia. }
    repeat split; [done..|lia|lia|lia].
Qed.

Lemma paginate_loop_ok from p :
  (0 < size)%nat -> Z.of_nat size < 2 ^ 31 ->
  pager_ok size p -> pager_ok size (paginate_loop max_cols size from p).
Proof.
  intros Hpos Hsize. revert p.
  induction from as [|str from IH]; intros p Hp; [done|].
  cbn [paginate_loop]. destruct (fits_row max_cols p str).
  - apply IH. exact Hp.
  - apply IH. exact (proj1 (store_row_ok p Hpos Hsize Hp)).
Qed.

Lemma new_pager_ok : pager_ok size (new_pager size).
Proof.
  unfold pager_ok, new_pager, emplace_back. cbn [to row_index app].
  split; [done|]. split; [|lia]. repeat constructor. apply length_replicate.
Qed.

(** X18: [paginate] always yields at least one page (what the assertion of
    [play] on [current_strings] asks for), every page has its [size]
    rows, and the row index never passes [size] while the words are
    read, so that no row is written outside of its page. *)
Theorem paginate_pages (from : list string) :
  (0 < size)%nat -> Z.of_nat size < 2 ^ 31 ->
  paginate max_cols size from ≠ [] ∧
  Forall (fun page => length page = size) (paginate max_cols size from) ∧
  ∀ before after,
    from = (before ++ after)%list ->
    0 <= row_index (paginate_loop max_cols size before (new_pager size))
      <= Z.of_nat size.
Proof.
  intros Hpos Hsize.
  pose proof (paginate_loop_ok from _ Hpos Hsize new_pager_ok) as Hp.
  split; [|split].
  - unfold paginate. destruct (0 <? _); [|apply Hp].
    apply (store_row_ok _ Hpos Hsize Hp).
  - unfold paginate. destruct (0 <? _); [|apply Hp].
    apply (store_row_ok _ Hpos Hsize Hp).
  - intros before after _.
    apply (paginate_loop_ok before _ Hpos Hsize new_pager_ok).
Qed.

Lemma store_row_narrow p : pager_narrow max_cols p -> pager_narrow max_cols (store_row size p).
Proof.
  intros [Hto Hrow]. unfold store_row, pager_narrow.
  assert (0 <= max_cols) by (pose proof (string_size_nonneg (row p)); lia).
  destruct (wrap_size_t (row_index p) =? Z.of_nat size); cbn [to row];
    (split; [|done]); unfold set_back; apply Forall_alter;
    try (intros page _ Hpage; by apply Forall_insert).
  - unfold emplace_back. apply Forall_app. split; [done|].
    repeat constructor. by apply Forall_replicate.
  - done.
Qed.

Lemma paginate_loop_narrow from p :
  max_cols < 2 ^ 63 ->
  Forall (fun w => string_size w < 2 ^ 63) from ->
  pager_narrow max_cols p -> pager_narrow max_cols (paginate_loop max_cols size from p).
Proof.
  intros Hmax Hfrom. revert p.
  induction Hfrom as [|str from Hstr _ IH]; intros p Hp; [done|].
  cbn [paginate_loop]. destruct (fits_row max_cols p str) eqn:Hfits.
  - apply IH. destruct Hp as [Hto Hrow]. split; [done|]. cbn [row].
    unfold fits_row, wrap_size_t in Hfits. apply Z.ltb_lt in Hfits.
    pose proof (string_size_nonneg (row p)). pose proof (string_size_nonneg str).
    rewrite !Z.mod_small in Hfits by lia.
    rewrite !string_size_append. change (string_size " ") with 1. lia.
  - apply IH. destruct (store_row_narrow p Hp) as [Hto _]. split; [done|].
    cbn [row]. destruct Hp as [_ Hrow].
    pose proof (string_size_nonneg (row p)). change (string_size "") with 0. lia.
Qed.

(** X19: no row that [paginate] stores is wider than [MAX_COLS]. *)
Theorem paginate_width (from : list string) :
  0 <= max_cols < 2 ^ 63 ->
  Forall (fun w => string_size w < 2 ^ 63) from ->
  Forall (Forall (fun r => string_size r <= max_cols))
         (paginate max_cols size from).
Proof.
  intros Hmax Hfrom.
  assert (pager_narrow max_cols (new_pager size)) as Hnew.
  { unfold pager_narrow, new_pager, emplace_back. cbn [to row app].
    split; [|change (string_size "") with 0; lia].
    repeat constructor. apply Forall_replicate. change (string_size "") with 0. lia. }
  pose proof (paginate_loop_narrow from _ (proj2 Hmax) Hfrom Hnew) as Hp.
  unfold paginate. destruct (0 <? _); [|apply Hp].
  apply (store_row_narrow _ Hp).
Qed.


Lemma paginate_loop_fits from p :
  0 <= max_cols < 2 ^ 64 ->
  string_size (row p) + total_size from + Z.of_nat (length from) <= max_cols ->
  paginate_loop max_cols size from p
  = {| to := to p; row := row p ++ join ((fun w => w ++ " ") <$> from);
       row_index := row_index p |}.
Proof.
  intros Hmax. revert p. induction from as [|str from IH]; intros p Hfits.
  { cbn [paginate_loop fmap list_fmap join fold_right].
    destruct p as [t r k]. cbn. f_equal.
    clear. induction r as [|c r IH]; [done|].
    change (String c r ++ "") with (String c (r ++ "")). by rewrite <-IH. }
  rewrite total_size_cons in Hfits. cbn [length] in Hfits.
  pose proof (string_size_nonneg (row p)). pose proof (string_size_nonneg str).
  pose proof (total_size_nonneg from).
  cbn [paginate_loop]. unfold fits_row, wrap_size_t.
  rewrite !Z.mod_small by lia.
  destruct (Z.ltb_spec (string_size (row p) + string_size str) max_cols); [|lia].
  rewrite IH; cbn [to row row_index].
  - f_equal. rewrite fmap_cons, join_cons.
    apply list_ascii_of_string_inj.
    by rewrite !list_ascii_of_string_append, !(assoc_L (++)%list).
  - rewrite !string_size_append. change (string_size " ") with 1. lia.
Qed.

(** X21: words that fit one row together are shown on the first row of one
    page, each followed by a space; an empty pool gives one blank
    page. *)
Theorem paginate_one_row (from : list string) :
  (0 < size)%nat ->
  0 <= max_cols < 2 ^ 64 ->
  total_size from + Z.of_nat (length from) <= max_cols ->
  paginate max_cols size from
  = [ if decide (from = []) then replicate size EmptyString
      else <[0%nat := join ((fun w => w ++ " ") <$> from)]>
             (replicate size EmptyString) ].
Proof.
  intros Hpos Hmax Hfits. unfold paginate.
  rewrite paginate_loop_fits; [|done|by change (string_size (row (new_pager size))) with 0].
  cbn [row new_pager to]. change ("" ++ ?s) with s.
  destruct from as [|str from]; [done|].
  rewrite decide_False by done.
  assert ((0 <? string_size (join ((fun w => w ++ " ") <$> str :: from))) = true) as ->.
  { apply Z.ltb_lt. rewrite fmap_cons, join_cons, !string_size_append.
    change (string_size " ") with 1.
    pose proof (string_size_nonneg str).
    pose proof (string_size_nonneg (join ((fun w => w ++ " ") <$> from))). lia. }
  unfold store_row, new_pager. cbn [row_index to row].
  assert ((wrap_size_t 0 =? Z.of_nat size) = false) as ->.
  { apply Z.eqb_neq. change (wrap_size_t 0) with 0. lia. }
  cbn [to row_index row]. done.
Qed.

End Pages.

Lemma paginate_pages_witness :
  paginate 10 2 ["cat"; "elephant"; "dog"] ≠ [] ∧
  Forall (fun page => length page = 2%nat)
         (paginate 10 2 ["cat"; "elephant"; "dog"]) ∧
  ∀ before after,
    ["cat"; "elephant"; "dog"] = (before ++ after)%list ->
    0 <= row_index (paginate_loop 10 2 before (new_pager 2)) <= Z.of_nat 2.
Proof. apply (paginate_pages 10 2); [lia|by vm_compute]. Defined.

Lemma paginate_width_witness :
  Forall (Forall (fun r => string_size r <= 10))
         (paginate 10 2 ["cat"; "elephant"; "dog"]).
Proof.
  apply (paginate_width 10 2); [by vm_compute|].
  repeat constructor.
Defined.


Lemma paginate_one_row_witness :
  paginate 10 2 ["cat"; "dog"]
  = [ if decide (["cat"; "dog"] = []) then replicate 2 EmptyString
      else <[0%nat := join ((fun w => w ++ " ") <$> ["cat"; "dog"])]>
             (replicate 2 EmptyString) ].
Proof. apply (paginate_one_row 10 2); [lia|by vm_compute|by vm_compute]. Defined.

(** ** The page commands *)

(** X23: the [std::max] of the commands [,] and [<] never clamps: the
    subtraction is done on an [unsigned int], so that from the first
    page the index wraps to 2^32 - 1; the index that the command leaves
    is that of a page only if the command was given past the first page
    (and no further than one past the last). *)
Theorem page_back_wraps (pages index : Z) :
  0 <= index < 2 ^ 32 -> 0 <= pages < 2 ^ 32 ->
  page_back index = (if index =? 0 then 2 ^ 32 - 1 else index - 1) ∧
  (page_back index < pages ↔ 0 < index <= pages).
Proof.
  intros Hindex Hpages. unfold page_back, wrap_uint.
  destruct (Z.eqb_spec index 0) as [->|Hne].
  - change ((0 - 1) mod 2 ^ 32) with (2 ^ 32 - 1). lia.
  - rewrite Z.mod_small by lia. lia.
Qed.

(** X24: the [std::min] of the commands [.] and [>] bounds the index by the
    number of pages, not by the index of the last page: from the last
    page the command leaves an index one past it, and there it stays. *)
Theorem page_forward_overshoots (pages index : Z) :
  0 <= index <= pages -> pages < 2 ^ 32 - 1 ->
  page_forward pages index = Z.min pages (index + 1) ∧
  (page_forward pages index < pages ↔ index + 1 < pages).
Proof.
  intros Hindex Hpages. unfold page_forward, wrap_uint, wrap_size_t.
  rewrite (Z.mod_small (index + 1)) by lia.
  rewrite (Z.mod_small (index + 1)) by lia.
  rewrite Z.mod_small by lia. lia.
Qed.

Lemma page_back_wraps_witness :
  page_back 0 = (if 0 =? 0 then 2 ^ 32 - 1 else 0 - 1) ∧
  (page_back 0 < 1 ↔ 0 < 0 <= 1).
Proof. apply (page_back_wraps 1 0); lia. Defined.

Lemma page_forward_overshoots_witness :
  page_forward 1 0 = Z.min 1 (0 + 1) ∧ (page_forward 1 0 < 1 ↔ 0 + 1 < 1).
Proof. apply (page_forward_overshoots 1 0); lia. Defined.

(** ** The help screen *)






(** ** What the pages show *)

Lemma join_app l1 l2 : join (l1 ++ l2) = join l1 ++ join l2.
Proof.
  apply list_ascii_of_string_inj.
  induction l1 as [|w l1 IH]; [done|].
  rewrite <-app_comm_cons, !join_cons, !list_ascii_of_string_append, IH.
  by rewrite list_ascii_of_string_append, (assoc_L (++)%list).
Qed.

Lemma string_app_nil_r s : s ++ "" = s.
Proof.
  induction s as [|c s IH]; [done|].
  change (String c s ++ "") with (String c (s ++ "")). by rewrite IH.
Qed.

Lemma string_app_assoc (s t u : string) : (s ++ t) ++ u = s ++ (t ++ u).
Proof.
  apply list_ascii_of_string_inj.
  by rewrite !list_ascii_of_string_append, (assoc_L (++)%list).
Qed.

Section Shown.

Variable max_cols : Z.
Variable size : nat.
Hypothesis size_pos : (0 < size)%nat.
Hypothesis size_int : Z.of_nat size < 2 ^ 31.

(** The pages of a pager: full pages, then the page being filled, with
    its rows stored so far and blank rows after them. *)
Lemma store_row_shape p full filled :
  to p = (full ++ [filled ++ replicate (size - length filled) EmptyString])%list ->
  row_index p = Z.of_nat (length filled) -> (length filled <= size)%nat ->
  ∃ full' filled',
    to (store_row size p)
      = (full' ++ [filled' ++ replicate (size - length filled') EmptyString])%list ∧
    row_index (store_row size p) = Z.of_nat (length filled') ∧
    (length filled' <= size)%nat ∧
    (concat full' ++ filled' = concat full ++ filled ++ [row p])%list.
Proof.
  intros Hto Hindex Hlen. unfold store_row.
  assert (wrap_size_t (row_index p) = row_index p) as ->.
  { unfold wrap_size_t. apply Z.mod_small. lia. }
  destruct (Z.eqb_spec (row_index p) (Z.of_nat size)) as [Heq|Hne];
    cbn [to row_index row].
  - assert (length filled = size) as Hfull by lia.
    exists (full ++ [filled])%list, [row p].
    rewrite Hto, Hfull, Nat.sub_diag. cbn [replicate]. rewrite app_nil_r.
    unfold emplace_back, set_back. rewrite length_app. cbn [length].
    replace (pred (length (full ++ [filled]) + 1))
      with (length (full ++ [filled])%list + 0)%nat by lia.
    rewrite alter_app_r. cbn [alter list_alter Z.to_nat].
    destruct size as [|n]; [lia|]. cbn [replicate insert list_insert length].
    replace (S n - 1)%nat with n by lia.
    split_and4; [done|done|lia|].
    by rewrite concat_app, <-!(assoc_L (++)%list), concat_cons, app_nil_r.
  - assert (length filled < size)%nat as Hroom by lia.
    exists full, (filled ++ [row p])%list.
    rewrite Hto. unfold set_back. rewrite length_app. cbn [length].
    replace (pred (length full + 1)) with (length full + 0)%nat by lia.
    rewrite alter_app_r. cbn [alter list_alter].
    rewrite Hindex, Nat2Z.id.
    replace (length filled) with (length filled + 0)%nat at 1 by lia.
    rewrite insert_app_r.
    destruct (size - length filled)%nat as [|n] eqn:Hn; [lia|].
    cbn [replicate insert list_insert]. rewrite length_app. cbn [length].
    replace (size - (length filled + 1))%nat with n by lia.
    split_and4.
    + by rewrite <-(assoc_L (++)%list).
    + unfold wrap_int. rewrite Z.mod_small; lia.
    + lia.
    + by rewrite (assoc_L (++)%list).
Qed.

Lemma paginate_loop_shape from p full filled :
  to p = (full ++ [filled ++ replicate (size - length filled) EmptyString])%list ->
  row_index p = Z.of_nat (length filled) -> (length filled <= size)%nat ->
  ∃ full' filled' kept,
    to (paginate_loop max_cols size from p)
      = (full' ++ [filled' ++ replicate (size - length filled') EmptyString])%list ∧
    row_index (paginate_loop max_cols size from p) = Z.of_nat (length filled') ∧
    (length filled' <= size)%nat ∧
    sublist kept from ∧
    join (concat full' ++ filled') ++ row (paginate_loop max_cols size from p)
    = (join (concat full ++ filled) ++ row p)
      ++ join ((fun w => w ++ " ") <$> kept).
Proof.
  revert p full filled.
  induction from as [|str from IH]; intros p full filled Hto Hindex Hlen.
  { exists full, filled, []. cbn [paginate_loop fmap list_fmap].
    split_and4; [done..|]. split; [constructor|].
    change (join []) with "". by rewrite string_app_nil_r. }
  cbn [paginate_loop]. destruct (fits_row max_cols p str).
  - destruct (IH {| to := to p; row := row p ++ (str ++ " ");
                    row_index := row_index p |} full filled Hto Hindex Hlen)
      as (full' & filled' & kept & ? & ? & ? & ? & Htext).
    exists full', filled', (str :: kept). split_and4; [done..|].
    split; [by apply sublist_skip|].
    rewrite Htext. cbn [row]. rewrite fmap_cons, join_cons.
    by rewrite !string_app_assoc.
  - destruct (store_row_shape p full filled Hto Hindex Hlen)
      as (full1 & filled1 & Hto1 & Hindex1 & Hlen1 & Hrows).
    destruct (IH {| to := to (store_row size p); row := EmptyString;
                    row_index := row_index (store_row size p) |}
                 full1 filled1 Hto1 Hindex1 Hlen1)
      as (full' & filled' & kept & ? & ? & ? & ? & Htext).
    exists full', filled', kept. split_and4; [done..|].
    split; [by apply sublist_cons|].
    rewrite Htext. cbn [row]. rewrite Hrows, (assoc_L (++)%list), join_app.
    change (join [row p]) with (row p ++ ""). by rewrite !string_app_nil_r.
Qed.

(** X22: read row after row, the pages spell words of the pool, in the
    order of the pool, each followed by a space, and nothing else; the
    rows stored fill the pages from the first row on, and only blank
    rows follow them on the last page. *)
Theorem paginate_shows (from : list string) :
  ∃ rows kept blanks,
    concat (paginate max_cols size from)
      = (rows ++ replicate blanks EmptyString)%list ∧
    (blanks <= size)%nat ∧
    sublist kept from ∧
    join rows = join ((fun w => w ++ " ") <$> kept).
Proof.
  destruct (paginate_loop_shape from (new_pager size) [] [])
    as (full & filled & kept & Hto & Hindex & Hlen & Hkept & Htext);
    [by rewrite Nat.sub_0_r|done|cbn [length]; lia|].
  cbn [concat app row new_pager] in Htext. change (join [] ++ "") with "" in Htext.
  change ("" ++ ?s) with s in Htext.
  set (p := paginate_loop max_cols size from (new_pager size)) in *.
  unfold paginate. fold p. destruct (Z.ltb_spec 0 (string_size (row p))).
  - destruct (store_row_shape p full filled Hto Hindex Hlen)
      as (full' & filled' & -> & _ & ? & Hrows).
    exists (concat full' ++ filled')%list, kept, (size - length filled')%nat.
    split_and4; [|lia|done|].
    + by rewrite concat_app, concat_cons, concat_nil, app_nil_r, (assoc_L (++)%list).
    + rewrite Hrows, (assoc_L (++)%list), join_app.
      change (join [row p]) with (row p ++ ""). by rewrite string_app_nil_r.
  - assert (row p = "") as Hrow.
    { destruct (row p); [done|]. unfold string_size in *. cbn [String.length] in *. lia. }
    exists (concat full ++ filled)%list, kept, (size - length filled)%nat.
    split_and4; [|lia|done|].
    + by rewrite Hto, concat_app, concat_cons, concat_nil, app_nil_r,
        (assoc_L (++)%list).
    + by rewrite Hrow, string_app_nil_r in Htext.
Qed.

End Shown.

Lemma paginate_shows_witness :
  ∃ rows kept blanks,
    concat (paginate 10 2 ["cat"; "elephant"; "dog"])
      = (rows ++ replicate blanks EmptyString)%list ∧
    (blanks <= 2)%nat ∧
    sublist kept ["cat"; "elephant"; "dog"] ∧
    join rows = join ((fun w => w ++ " ") <$> kept).
Proof. apply (paginate_shows 10 2); [lia|by vm_compute]. Defined.

(** ** The word list of the random start *)

Lemma c_str_cut bytes :
  (3 < length bytes)%nat ->
  c_str (<[3%nat := Ascii.zero]> bytes) = c_str (take 3 bytes).
Proof.
  destruct bytes as [|a [|b [|c [|d bytes]]]]; cbn [length]; [lia..|].
  intros _. cbn [insert list_insert take c_str].
  destruct (Ascii.eqb a Ascii.zero), (Ascii.eqb b Ascii.zero),
    (Ascii.eqb c Ascii.zero); try done.
Qed.

Lemma c_str_size bytes n : string_size (c_str (take n bytes)) <= Z.of_nat n.
Proof.
  revert bytes. induction n as [|n IH]; intros [|c bytes];
    cbn [take c_str]; try (change (string_size "") with 0; lia).
  destruct (Ascii.eqb c Ascii.zero); [change (string_size "") with 0; lia|].
  specialize (IH bytes). unfold string_size in *. cbn [String.length]. lia.
Qed.

Lemma choices_loop_records fuel data read (k : nat) :
  0 < read < 2 ^ 29 -> Z.of_nat k <= read ->
  read - Z.of_nat k < Z.of_nat fuel ->
  4 * read <= Z.of_nat (length data) ->
  ∃ choices,
    choices_loop fuel data read (4 * Z.of_nat k) = Some choices ∧
    Z.of_nat (length choices) = read - Z.of_nat k ∧
    ∀ i : nat,
      Z.of_nat i < read - Z.of_nat k ->
      choices !! i = Some (c_str (take 3 (drop (4 * (k + i)) data))).
Proof.
  intros Hread. revert data k.
  assert (wrap_int (read * 4) = read * 4) as Hwrap.
  { unfold wrap_int. rewrite Z.mod_small; lia. }
  induction fuel as [|fuel IH]; intros data k Hk Hfuel Hdata; [lia|].
  cbn [choices_loop]. rewrite Hwrap.
  destruct (Z.ltb_spec (4 * Z.of_nat k) (read * 4 - 3)) as [Hmore|Hdone].
  2: { exists []. split; [done|]. split; [cbn [length]; lia|]. intros i ?. lia. }
  set (data' := <[Z.to_nat (4 * Z.of_nat k + 3) := Ascii.zero]> data).
  destruct (IH data' (S k)) as (choices & Hloop & Hlen & Hchoices);
    [lia|lia|unfold data'; rewrite length_insert; lia|].
  replace (4 * Z.of_nat k + 4) with (4 * Z.of_nat (S k)) by lia.
  rewrite Hloop. eexists. split; [done|]. split; [cbn [length]; lia|].
  intros [|i] Hi.
  - cbn [lookup list_lookup]. f_equal. unfold data'.
    replace (Z.to_nat (4 * Z.of_nat k)) with (4 * k)%nat by lia.
    replace (Z.to_nat (4 * Z.of_nat k + 3)) with (4 * k + 3)%nat by lia.
    rewrite drop_insert_ge by lia.
    replace (4 * k + 3 - 4 * k)%nat with 3%nat by lia.
    rewrite c_str_cut; [by rewrite Nat.add_0_r|]. rewrite length_drop. lia.
  - cbn [lookup list_lookup]. rewrite Hchoices by lia. f_equal. f_equal.
    unfold data'. rewrite drop_insert_lt by lia. f_equal. f_equal. lia.
Qed.

(** X26: the words that the random start chooses from: one for each record
    of four bytes that was read, and so at least one; each is the C
    string that starts the record, cut after three bytes: it has at
    most three characters, and has three when none of the three bytes
    is NUL. *)
Theorem choices_of_records (data : list ascii) (read : Z) :
  0 < read < 2 ^ 29 -> 4 * read <= Z.of_nat (length data) ->
  ∃ choices,
    choices_loop (S (Z.to_nat read)) data read 0 = Some choices ∧
    Z.of_nat (length choices) = read ∧
    Forall (fun w => string_size w <= 3) choices ∧
    ∀ i : nat,
      Z.of_nat i < read ->
      choices !! i = Some (c_str (take 3 (drop (4 * i) data))) ∧
      (Forall (fun c => c ≠ Ascii.zero) (take 3 (drop (4 * i) data)) ->
       choices !! i = Some (string_of_list_ascii (take 3 (drop (4 * i) data)))).
Proof.
  intros Hread Hdata.
  destruct (choices_loop_records (S (Z.to_nat read)) data read 0)
    as (choices & Hloop & Hlen & Hchoices); [lia..|].
  exists choices. split; [done|]. split; [lia|]. split.
  - apply Forall_forall. intros w [i Hi]%list_elem_of_lookup.
    assert (Z.of_nat i < read) as Hlt.
    { apply lookup_lt_Some in Hi. lia. }
    rewrite Hchoices in Hi by lia. injection Hi as <-.
    apply (c_str_size _ 3).
  - intros i Hi. rewrite Hchoices by lia. cbn [Nat.add]. split; [done|].
    intros Hnz. f_equal. clear -Hnz.
    induction Hnz as [|c bytes Hc _ IH]; [done|]. cbn [c_str string_of_list_ascii].
    destruct (Ascii.eqb_spec c Ascii.zero); [done|]. by rewrite IH.
Qed.

Lemma choices_of_records_witness :
  ∃ choices,
    choices_loop (S (Z.to_nat 2)) (list_ascii_of_string "cat rat ") 2 0
      = Some choices ∧
    Z.of_nat (length choices) = 2 ∧
    Forall (fun w => string_size w <= 3) choices ∧
    ∀ i : nat,
      Z.of_nat i < 2 ->
      choices !! i
        = Some (c_str (take 3 (drop (4 * i) (list_ascii_of_string "cat rat ")))) ∧
      (Forall (fun c => c ≠ Ascii.zero)
              (take 3 (drop (4 * i) (list_ascii_of_string "cat rat "))) ->
       choices !! i
         = Some (string_of_list_ascii
                   (take 3 (drop (4 * i) (list_ascii_of_string "cat rat "))))).
Proof.
  apply (choices_of_records (list_ascii_of_string "cat rat ") 2);
    [lia|by vm_compute].
Defined.

(** ** The message of a rejected turn *)

Section Messages.

Variable dict : oracle.

(** X27: the loop over the candidates stops at the first candidate without
    stems, and only there: the candidates after it are not looked at,
    while a candidate with a stem already used does not stop it, so that
    the message shown is that of the candidate without stems even when
    an earlier candidate had failed. *)
Theorem candidates_loop_stops_at_non_word used before c after r :
  Forall (fun c' => stems_of dict c' ≠ ∅) before ->
  string_size c < 128 -> stems_of dict c = ∅ ->
  ∃ log r',
    candidates_loop dict used (before ++ c :: after) r = (log, Ok r') ∧
    entry_invalid r' = true ∧ shown_err r' = Some (not_word c) ∧
    log = (flat_map (fun c' => queries (stems_from_str dict c')) (before ++ [c])).
Proof.
  intros Hbefore Hsize Hnone. revert r.
  induction Hbefore as [|c' before Hc' _ IH]; intros r.
  - cbn [app candidates_loop flat_map].
    destruct (stems_from_str_ok dict c Hsize) as [stems Hstems].
    assert (stems = ∅) as ->.
    { unfold stems_of in Hnone. by rewrite Hstems in Hnone. }
    rewrite (run_eq (stems_from_str dict c)), Hstems. cbn [bind].
    change (size (∅ : gset string) =? 0)%nat with true.
    unfold ret. rewrite !app_nil_r. by eexists _, _.
  - rewrite <-!app_comm_cons. cbn [candidates_loop flat_map].
    destruct (stems_of_nonempty_ok _ _ Hc') as [log1 Hstems].
    rewrite Hstems. cbn [bind queries fst].
    destruct (size (stems_of dict c') =? 0)%nat eqn:Hzero.
    { by apply size_zero_empty in Hzero. }
    destruct (IH (stems_loop used c' (set_order (stems_of dict c')) false r))
      as (log & r' & -> & ? & ? & ->).
    by eexists _, _.
Qed.

End Messages.

Lemma candidates_loop_stops_at_non_word_witness :
  ∃ log r',
    candidates_loop demo {["cat"]} (["cats"] ++ "zzz" :: [letters 128])
      {| entry_invalid := false; shown_err := None; score_this_round := 0;
         stems_this_round := ∅ |} = (log, Ok r') ∧
    entry_invalid r' = true ∧ shown_err r' = Some (not_word "zzz") ∧
    log = (flat_map (fun c' => queries (stems_from_str demo c'))
                    (["cats"] ++ ["zzz"])).
Proof.
  apply (candidates_loop_stops_at_non_word demo).
  - constructor; [|constructor].
    assert (stems_of demo "cats" = {["cat"]}) as -> by (by vm_compute).
    apply (non_empty_singleton_L (A := string) (C := gset string) "cat").
  - by vm_compute.
  - by vm_compute.
Defined.
